(** * Collision detection of the game engine: geometry primitives and the
      collision world

    Shallow embedding of [include/physics/collision.h],
    [src/physics/collision.cpp], [include/physics/collision_world.h] and
    [src/physics/collision_world.cpp].

    Modelling choices:
    - [float] is IEEE-754 binary32 (24 bits of precision, exponent bound 128),
      through the executable specification [SpecFloat] of the Standard
      Library, every operation rounding to nearest-even;
    - [uint32_t] values (entity identifiers, layers, rows of the layer
      matrix) are [N] and [Z] with the 32-bit complement written out;
    - [std::vector<ColliderEntry>] is a [list], [std::unordered_map] is a
      [gmap]; indexing a vector out of range is undefined behaviour in the
      source and is [None] in the model. *)

From Stdlib Require Import ZArith Bool List.
From Stdlib Require Import Floats.SpecFloat.
From stdpp Require Import base option list gmap.

Local Open Scope Z_scope.

(** ** Single-precision floating point *)

Module F32.

Definition prec : Z := 24.
Definition emax : Z := 128.

Definition float := spec_float.

Definition add : float -> float -> float := SFadd prec emax.
Definition sub : float -> float -> float := SFsub prec emax.
Definition mul : float -> float -> float := SFmul prec emax.

(** [a < b], [a <= b] and [a == b]; the source's [a > b] and [a >= b] are
    [ltb b a] and [leb b a]. *)
Definition ltb : float -> float -> bool := SFltb.
Definition leb : float -> float -> bool := SFleb.
Definition eqb : float -> float -> bool := SFeqb.

(** An integer literal such as [10.0f]. *)
Definition of_Z (z : Z) : float := binary_normalize prec emax z 0 false.

Definition zero : float := S754_zero false.
Definition one : float := of_Z 1.

(** [std::min(a, b)] is [(b < a) ? b : a]. *)
Definition min (a b : float) : float := if ltb b a then b else a.
Definition max (a b : float) : float := if ltb a b then b else a.

(** The values a [float] variable can hold: [spec_float] also has finite
    triples that are no binary32 number. *)
Definition valid (x : float) : Prop := valid_binary prec emax x = true.

(** [0 <= x]. *)
Definition nonneg (x : float) : Prop := leb zero x = true.

End F32.

Abbreviation float := F32.float.

(** ** Layers and masks (collision.h) *)

Definition CollisionLayer := Z.

Module Layer.
Definition None : CollisionLayer := 0.
Definition Default : CollisionLayer := Z.shiftl 1 0.
Definition Player : CollisionLayer := Z.shiftl 1 1.
Definition Enemy : CollisionLayer := Z.shiftl 1 2.
Definition Projectile : CollisionLayer := Z.shiftl 1 3.
Definition Terrain : CollisionLayer := Z.shiftl 1 4.
Definition Trigger : CollisionLayer := Z.shiftl 1 5.
Definition Pickup : CollisionLayer := Z.shiftl 1 6.
Definition Platform : CollisionLayer := Z.shiftl 1 7.
Definition All : CollisionLayer := 0xFFFFFFFF.
End Layer.

(** [~x] on a [uint32_t]. *)
Definition not32 (x : Z) : Z := Z.land (Z.lnot x) 0xFFFFFFFF.

Definition hasLayer (mask layer : CollisionLayer) : bool :=
  negb (Z.land mask layer =? Layer.None).

Record CollisionMask := {
  layer : CollisionLayer;
  collidesWith : CollisionLayer
}.

Definition canCollideWith (this other : CollisionMask) : bool :=
  let thisCanHitOther := hasLayer (collidesWith this) (layer other) in
  thisCanHitOther.

(** ** Axis-aligned bounding boxes (collision.cpp) *)

Record AABB := {
  AABB_x : float;
  AABB_y : float;
  AABB_width : float;
  AABB_height : float
}.

(** The constructor [AABB(x, y, w, h)]. *)
Definition mkAABB (x y w h : float) : AABB :=
  {| AABB_x := x; AABB_y := y; AABB_width := w; AABB_height := h |}.

Definition AABB_left (b : AABB) : float := AABB_x b.
Definition AABB_right (b : AABB) : float := F32.add (AABB_x b) (AABB_width b).
Definition AABB_top (b : AABB) : float := AABB_y b.
Definition AABB_bottom (b : AABB) : float := F32.add (AABB_y b) (AABB_height b).

(** [px >= left() && px <= right() && py >= top() && py <= bottom()] *)
Definition AABB_contains (b : AABB) (px py : float) : bool :=
  F32.leb (AABB_left b) px && F32.leb px (AABB_right b) &&
  F32.leb (AABB_top b) py && F32.leb py (AABB_bottom b).

(** [left() < other.right() && right() > other.left() &&
     top() < other.bottom() && bottom() > other.top()] *)
Definition AABB_intersects (b other : AABB) : bool :=
  F32.ltb (AABB_left b) (AABB_right other) &&
  F32.ltb (AABB_left other) (AABB_right b) &&
  F32.ltb (AABB_top b) (AABB_bottom other) &&
  F32.ltb (AABB_top other) (AABB_bottom b).

Definition AABB_merge (b other : AABB) : AABB :=
  let minX := F32.min (AABB_left b) (AABB_left other) in
  let minY := F32.min (AABB_top b) (AABB_top other) in
  let maxX := F32.max (AABB_right b) (AABB_right other) in
  let maxY := F32.max (AABB_bottom b) (AABB_bottom other) in
  {| AABB_x := minX; AABB_y := minY;
     AABB_width := F32.sub maxX minX; AABB_height := F32.sub maxY minY |}.

(** ** Collider components (collision.cpp)

    The fields of the [Component] base class (owning entity, enabled flag)
    are never read by the collision world and are left out. *)

Record ColliderComponent := {
  width_ : float;
  height_ : float;
  offsetX_ : float;
  offsetY_ : float;
  collisionMask_ : CollisionMask;
  isTrigger_ : bool
}.

Definition getLayer (c : ColliderComponent) : CollisionLayer := layer (collisionMask_ c).
Definition getCollisionMask (c : ColliderComponent) : CollisionMask := collisionMask_ c.
Definition isTrigger (c : ColliderComponent) : bool := isTrigger_ c.

(** The constructor [ColliderComponent(width, height, layer, mask)]. *)
Definition mkCollider (w h : float) (l m : CollisionLayer) : ColliderComponent :=
  {| width_ := w; height_ := h; offsetX_ := F32.zero; offsetY_ := F32.zero;
     collisionMask_ := {| layer := l; collidesWith := m |}; isTrigger_ := false |}.

Definition setTrigger (t : bool) (c : ColliderComponent) : ColliderComponent :=
  {| width_ := width_ c; height_ := height_ c; offsetX_ := offsetX_ c;
     offsetY_ := offsetY_ c; collisionMask_ := collisionMask_ c; isTrigger_ := t |}.

(** [ColliderComponent::getBounds(entityX, entityY, scaleX, scaleY)] *)
Definition ColliderComponent_getBounds (c : ColliderComponent)
    (entityX entityY scaleX scaleY : float) : AABB :=
  let scaledWidth := F32.mul (width_ c) scaleX in
  let scaledHeight := F32.mul (height_ c) scaleY in
  let bx := F32.add entityX (F32.mul (offsetX_ c) scaleX) in
  let by_ := F32.add entityY (F32.mul (offsetY_ c) scaleY) in
  {| AABB_x := bx; AABB_y := by_; AABB_width := scaledWidth; AABB_height := scaledHeight |}.

(** ** The collision world (collision_world.cpp) *)

Definition EntityID := N.
Bind Scope N_scope with EntityID.

Record ColliderEntry := {
  entityId : EntityID;
  posX : float;
  posY : float;
  scaleX : float;
  scaleY : float;
  collider : ColliderComponent
}.

Definition getBounds (e : ColliderEntry) : AABB :=
  ColliderComponent_getBounds (collider e) (posX e) (posY e) (scaleX e) (scaleY e).

Record CollisionInfo := {
  entityA : EntityID;
  entityB : EntityID;
  boundsA : AABB;
  boundsB : AABB;
  overlapX : float;
  overlapY : float;
  info_isTrigger : bool
}.

(** The data members of [CollisionWorld]; the three callback slots are the
    record [Callbacks] below. [layerMatrix_] is the array [uint32_t[8]], one
    row per layer bit: the statements about it take its length to be 8. *)
Record CollisionWorld := {
  colliders_ : list ColliderEntry;
  entityIndexMap_ : gmap EntityID nat;
  layerMatrix_ : list Z
}.

Definition newWorld : CollisionWorld :=
  {| colliders_ := []; entityIndexMap_ := ∅; layerMatrix_ := replicate 8 0xFFFFFFFF |}.

Definition with_colliders (w : CollisionWorld) (cs : list ColliderEntry)
    (m : gmap EntityID nat) : CollisionWorld :=
  {| colliders_ := cs; entityIndexMap_ := m; layerMatrix_ := layerMatrix_ w |}.

(** Arithmetic on [size_t] wraps modulo [2^64]. *)
Definition size_t_wrap (z : Z) : Z := z mod 2 ^ 64.

(** [pop_back] on an empty vector is undefined. *)
Definition pop_back {A} (l : list A) : option (list A) :=
  match l with
  | [] => None
  | _ => Some (removelast l)
  end.

(** Mutating operations return [None] where the source indexes
    [colliders_] out of range or pops an empty vector. *)
Definition removeCollider (id : EntityID) (w : CollisionWorld) : option CollisionWorld :=
  match entityIndexMap_ w !! id with
  | None => Some w
  | Some index =>
    let size := Z.of_nat (length (colliders_ w)) in
    '(cs, m) ←
      (if Z.of_nat index <? size_t_wrap (size - 1) then
         back ← last (colliders_ w);
         _ ← colliders_ w !! index;
         let cs := <[index := back]> (colliders_ w) in
         moved ← cs !! index;
         Some (cs, <[entityId moved := index]> (entityIndexMap_ w))
       else Some (colliders_ w, entityIndexMap_ w));
    cs' ← pop_back cs;
    Some (with_colliders w cs' (delete id m))
  end.

Definition addCollider (id : EntityID) (x y sx sy : float) (col : ColliderComponent)
    (w : CollisionWorld) : option CollisionWorld :=
  w1 ← (if decide (is_Some (entityIndexMap_ w !! id)) then removeCollider id w else Some w);
  let cs := colliders_ w1 ++
    [{| entityId := id; posX := x; posY := y; scaleX := sx; scaleY := sy; collider := col |}] in
  Some (with_colliders w1 cs (<[id := (length cs - 1)%nat]> (entityIndexMap_ w1))).

(** The four-argument overload. *)
Definition addCollider4 (id : EntityID) (x y : float) (col : ColliderComponent)
    (w : CollisionWorld) : option CollisionWorld :=
  addCollider id x y F32.one F32.one col w.

Definition updatePosition (id : EntityID) (x y : float) (w : CollisionWorld)
    : option CollisionWorld :=
  match entityIndexMap_ w !! id with
  | Some i =>
    e ← colliders_ w !! i;
    let e' := {| entityId := entityId e; posX := x; posY := y;
                 scaleX := scaleX e; scaleY := scaleY e; collider := collider e |} in
    Some (with_colliders w (<[i := e']> (colliders_ w)) (entityIndexMap_ w))
  | None => Some w
  end.

Definition updateScale (id : EntityID) (sx sy : float) (w : CollisionWorld)
    : option CollisionWorld :=
  match entityIndexMap_ w !! id with
  | Some i =>
    e ← colliders_ w !! i;
    let e' := {| entityId := entityId e; posX := posX e; posY := posY e;
                 scaleX := sx; scaleY := sy; collider := collider e |} in
    Some (with_colliders w (<[i := e']> (colliders_ w)) (entityIndexMap_ w))
  | None => Some w
  end.

Definition clear (w : CollisionWorld) : CollisionWorld := with_colliders w [] ∅.

Definition hasCollider (id : EntityID) (w : CollisionWorld) : bool :=
  bool_decide (is_Some (entityIndexMap_ w !! id)).

(** [getCollider]: the inner [None] is [nullptr]. *)
Definition getCollider (id : EntityID) (w : CollisionWorld) : option (option ColliderEntry) :=
  match entityIndexMap_ w !! id with
  | Some i => e ← colliders_ w !! i; Some (Some e)
  | None => Some None
  end.

Definition getColliderCount (w : CollisionWorld) : nat := length (colliders_ w).

(** *** Detection *)

(** The overlap computation shared by the three detection paths. *)
Definition mkCollisionInfo (idA idB : EntityID) (bA bB : AABB) (trigger : bool)
    : CollisionInfo :=
  let overlapLeft := F32.sub (AABB_right bA) (AABB_left bB) in
  let overlapRight := F32.sub (AABB_right bB) (AABB_left bA) in
  let overlapTop := F32.sub (AABB_bottom bA) (AABB_top bB) in
  let overlapBottom := F32.sub (AABB_bottom bB) (AABB_top bA) in
  {| entityA := idA; entityB := idB; boundsA := bA; boundsB := bB;
     overlapX := F32.min overlapLeft overlapRight;
     overlapY := F32.min overlapTop overlapBottom;
     info_isTrigger := trigger |}.

(** [for (size_t i = lo; i < hi; i++) body], threading the loop state. *)
Definition for_range {A} (lo hi : nat) (body : nat -> A -> A) (init : A) : A :=
  fold_left (fun acc i => body i acc) (seq lo (hi - lo)) init.

(** The inner loop of [detectCollisions] for one [i]. *)
Definition detect_inner (cs : list ColliderEntry) (i : nat) (a : ColliderEntry)
    (results : list CollisionInfo) : list CollisionInfo :=
  let bA := getBounds a in
  for_range (S i) (length cs) (fun j results =>
    match cs !! j with
    | Some b =>
      let bB := getBounds b in
      if AABB_intersects bA bB then
        results ++ [mkCollisionInfo (entityId a) (entityId b) bA bB
                      (isTrigger (collider a) || isTrigger (collider b))]
      else results
    | None => results
    end) results.

(** Both indices stay below [colliders_.size()], so the [None] branches are
    never taken. *)
Definition detectCollisions (w : CollisionWorld) : list CollisionInfo :=
  let cs := colliders_ w in
  for_range 0 (length cs) (fun i results =>
    match cs !! i with
    | Some a => detect_inner cs i a results
    | None => results
    end) [].

Definition detectCollisionsForEntity (id : EntityID) (w : CollisionWorld)
    : option (list CollisionInfo) :=
  match entityIndexMap_ w !! id with
  | None => Some []
  | Some idx =>
    target ← colliders_ w !! idx;
    let targetBounds := getBounds target in
    Some (fold_left (fun results other =>
      if (entityId other =? id)%N then results
      else
        let otherBounds := getBounds other in
        if AABB_intersects targetBounds otherBounds then
          let maskA := getCollisionMask (collider target) in
          let maskB := getCollisionMask (collider other) in
          if negb (canCollideWith maskA maskB) then results
          else results ++ [mkCollisionInfo (entityId target) (entityId other)
                             targetBounds otherBounds
                             (isTrigger (collider target) || isTrigger (collider other))]
        else results) (colliders_ w) [])
  end.

Definition queryPoint (x y : float) (layerFilter : CollisionLayer) (w : CollisionWorld)
    : list EntityID :=
  fold_left (fun results entry =>
    let bounds := getBounds entry in
    if AABB_contains bounds x y then
      if hasLayer layerFilter (getLayer (collider entry)) then results ++ [entityId entry]
      else results
    else results) (colliders_ w) [].

Definition queryPoint2 (x y : float) (w : CollisionWorld) : list EntityID :=
  queryPoint x y Layer.All w.

Definition queryAABB (bounds : AABB) (layerFilter : CollisionLayer) (w : CollisionWorld)
    : list EntityID :=
  fold_left (fun results entry =>
    let entryBounds := getBounds entry in
    if AABB_intersects bounds entryBounds then results ++ [entityId entry]
    else results) (colliders_ w) [].

Definition queryAABB1 (bounds : AABB) (w : CollisionWorld) : list EntityID :=
  queryAABB bounds Layer.All w.

(** [checkCollision(a, b, outInfo)]: the result and the final content of the
    reference parameter. *)
Definition checkCollision (a b : EntityID) (outInfo : CollisionInfo) (w : CollisionWorld)
    : option (bool * CollisionInfo) :=
  match entityIndexMap_ w !! a, entityIndexMap_ w !! b with
  | Some ia, Some ib =>
    entryA ← colliders_ w !! ia;
    entryB ← colliders_ w !! ib;
    let bA := getBounds entryA in
    let bB := getBounds entryB in
    if negb (AABB_intersects bA bB) then Some (false, outInfo)
    else
      let maskA := getCollisionMask (collider entryA) in
      let maskB := getCollisionMask (collider entryB) in
      if negb (canCollideWith maskA maskB) then Some (false, outInfo)
      else Some (true, mkCollisionInfo a b bA bB
                         (isTrigger (collider entryA) || isTrigger (collider entryB)))
  | _, _ => Some (false, outInfo)
  end.

(** The two-argument overload passes a local [CollisionInfo]. *)
Definition checkCollision2 (a b : EntityID) (local : CollisionInfo) (w : CollisionWorld)
    : option bool :=
  fst <$> checkCollision a b local w.

(** *** Callbacks

    A [std::function] slot is an optional handler; the handlers act on the
    state [S] of the code that installed them. *)
Section Dispatch.
Context {S : Type}.

Record Callbacks := {
  onCollision_ : option (CollisionInfo -> S -> S);
  onTriggerEnter_ : option (EntityID -> EntityID -> S -> S);
  onTriggerExit_ : option (EntityID -> EntityID -> S -> S)
}.

Definition dispatch (cb : Callbacks) (s : S) (info : CollisionInfo) : S :=
  if info_isTrigger info then
    match onTriggerEnter_ cb with
    | Some f => f (entityA info) (entityB info) s
    | None => s
    end
  else
    match onCollision_ cb with
    | Some f => f info s
    | None => s
    end.

Definition processCollisions (cb : Callbacks) (w : CollisionWorld) (s : S) : S :=
  let collisions := detectCollisions w in
  fold_left (dispatch cb) collisions s.
End Dispatch.
Arguments Callbacks : clear implicits.

(** *** The layer matrix *)

(** [l & (1 << i)] as a condition. *)
Definition bit_set (l : Z) (i : nat) : bool := negb (Z.land l (Z.shiftl 1 (Z.of_nat i)) =? 0).

(** [layerMatrix_[i] |= l] or [layerMatrix_[i] &= ~l], for [i < 8]. *)
Definition setLayerRow (m : list Z) (i : nat) (l : Z) (enabled : bool) : list Z :=
  if enabled then <[i := Z.lor (m !!! i) l]> m
  else <[i := Z.land (m !!! i) (not32 l)]> m.

Definition setLayerCollisionEnabled_matrix (l1 l2 : CollisionLayer) (enabled : bool)
    (m : list Z) : list Z :=
  for_range 0 8 (fun i m =>
    let m := if bit_set l1 i then setLayerRow m i l2 enabled else m in
    let m := if bit_set l2 i then setLayerRow m i l1 enabled else m in
    m) m.

Definition setLayerCollisionEnabled (layer1 layer2 : CollisionLayer) (enabled : bool)
    (w : CollisionWorld) : CollisionWorld :=
  {| colliders_ := colliders_ w; entityIndexMap_ := entityIndexMap_ w;
     layerMatrix_ := setLayerCollisionEnabled_matrix layer1 layer2 enabled (layerMatrix_ w) |}.

(** The loop of [isLayerCollisionEnabled] from bit [i], [n] iterations left. *)
Fixpoint isLayerCollisionEnabled_loop (m : list Z) (l1 l2 : Z) (i n : nat) : bool :=
  match n with
  | O => true
  | S n' =>
    if bit_set l1 i && (Z.land (m !!! i) l2 =? 0) then false
    else isLayerCollisionEnabled_loop m l1 l2 (S i) n'
  end.

Definition isLayerCollisionEnabled (layer1 layer2 : CollisionLayer) (w : CollisionWorld)
    : bool :=
  isLayerCollisionEnabled_loop (layerMatrix_ w) layer1 layer2 0 8.

Definition shouldCollideLayers (a b : CollisionLayer) (w : CollisionWorld) : bool :=
  isLayerCollisionEnabled a b w.

(** ** The index map and the entry sequence *)

(** The index map sends an identifier to [i] exactly when the entry at [i]
    carries that identifier. *)
Definition index_map_ok (w : CollisionWorld) : Prop :=
  forall (id : EntityID) (i : nat),
    entityIndexMap_ w !! id = Some i <->
    exists e, colliders_ w !! i = Some e /\ entityId e = id.

(** A vector holds fewer than [2^64] elements. *)
Definition size_ok (w : CollisionWorld) : Prop :=
  Z.of_nat (length (colliders_ w)) < 2 ^ 64.

Definition world_inv (w : CollisionWorld) : Prop := index_map_ok w /\ size_ok w.

(** The entry registered under an identifier. *)
Definition entry_of (w : CollisionWorld) (id : EntityID) : option ColliderEntry :=
  i ← entityIndexMap_ w !! id; colliders_ w !! i.

(** ** The detection loops as list comprehensions

    The reference results the loops are compared with: what each loop
    collects, in the order in which it collects it. *)

Definition entries_intersect (a b : ColliderEntry) : bool :=
  AABB_intersects (getBounds a) (getBounds b).

Definition pair_info (a b : ColliderEntry) : CollisionInfo :=
  mkCollisionInfo (entityId a) (entityId b) (getBounds a) (getBounds b)
    (isTrigger (collider a) || isTrigger (collider b)).

(** Every entry against the entries after it. *)
Fixpoint detect_pairs (cs : list ColliderEntry) : list CollisionInfo :=
  match cs with
  | [] => []
  | a :: rest =>
    map (pair_info a) (List.filter (entries_intersect a) rest) ++ detect_pairs rest
  end.

(** The entries [detectCollisionsForEntity] reports against [target]. *)
Definition reported_for (id : EntityID) (target other : ColliderEntry) : bool :=
  negb (entityId other =? id)%N && entries_intersect target other &&
  canCollideWith (getCollisionMask (collider target)) (getCollisionMask (collider other)).

(** ** Overlap depths *)

(** The four edges of a box are binary32 numbers. *)
Definition bounds_valid (b : AABB) : Prop :=
  F32.valid (AABB_left b) /\ F32.valid (AABB_right b) /\
  F32.valid (AABB_top b) /\ F32.valid (AABB_bottom b).

(** The overlap fields of a result against its two boxes. *)
Definition overlap_formula (info : CollisionInfo) : Prop :=
  let A := boundsA info in
  let B := boundsB info in
  overlapX info = F32.min (F32.sub (AABB_right A) (AABB_left B))
                          (F32.sub (AABB_right B) (AABB_left A)) /\
  overlapY info = F32.min (F32.sub (AABB_bottom A) (AABB_top B))
                          (F32.sub (AABB_bottom B) (AABB_top A)).

(** The overlap fields are below both differences of their axis: [std::min]
    is the minimum there. *)
Definition overlap_minimal (info : CollisionInfo) : Prop :=
  let A := boundsA info in
  let B := boundsB info in
  F32.leb (overlapX info) (F32.sub (AABB_right A) (AABB_left B)) = true /\
  F32.leb (overlapX info) (F32.sub (AABB_right B) (AABB_left A)) = true /\
  F32.leb (overlapY info) (F32.sub (AABB_bottom A) (AABB_top B)) = true /\
  F32.leb (overlapY info) (F32.sub (AABB_bottom B) (AABB_top A)) = true.

Definition overlap_ok (info : CollisionInfo) : Prop :=
  overlap_formula info /\ overlap_minimal info /\
  F32.nonneg (overlapX info) /\ F32.nonneg (overlapY info).

(** A positive pair result of the world: its boxes are the world boxes of two
    registered entries and intersect. *)
Definition positive_result (w : CollisionWorld) (info : CollisionInfo) : Prop :=
  exists a b, a ∈ colliders_ w /\ b ∈ colliders_ w /\
    entityA info = entityId a /\ entityB info = entityId b /\
    boundsA info = getBounds a /\ boundsB info = getBounds b /\
    AABB_intersects (boundsA info) (boundsB info) = true.

(** ** Observing the callbacks *)

Inductive Call :=
  | CollisionCall (info : CollisionInfo)
  | TriggerEnterCall (a b : EntityID)
  | TriggerExitCall (a b : EntityID).

(** Handlers that append their arguments to a log. *)
Definition logging : Callbacks (list Call) :=
  {| onCollision_ := Some (fun info log => log ++ [CollisionCall info]);
     onTriggerEnter_ := Some (fun a b log => log ++ [TriggerEnterCall a b]);
     onTriggerExit_ := Some (fun a b log => log ++ [TriggerExitCall a b]) |}.

Definition call_of (info : CollisionInfo) : Call :=
  if info_isTrigger info then TriggerEnterCall (entityA info) (entityB info)
  else CollisionCall info.

(** An entry with another collision mask. *)
Definition with_mask (m : CollisionMask) (e : ColliderEntry) : ColliderEntry :=
  {| entityId := entityId e; posX := posX e; posY := posY e;
     scaleX := scaleX e; scaleY := scaleY e;
     collider := {| width_ := width_ (collider e); height_ := height_ (collider e);
                    offsetX_ := offsetX_ (collider e); offsetY_ := offsetY_ (collider e);
                    collisionMask_ := m; isTrigger_ := isTrigger_ (collider e) |} |}.

(** ** Sample worlds *)

(** Registration of a sequence of entries, one [addCollider] each. *)
Fixpoint register_all (es : list ColliderEntry) (w : CollisionWorld)
    : option CollisionWorld :=
  match es with
  | [] => Some w
  | e :: es' =>
    w' ← addCollider (entityId e) (posX e) (posY e) (scaleX e) (scaleY e) (collider e) w;
    register_all es' w'
  end.

(** A square box of side [side] at [(x, y)] with unit scale. *)
Definition square (id : EntityID) (x y side : Z) (l m : CollisionLayer) : ColliderEntry :=
  {| entityId := id; posX := F32.of_Z x; posY := F32.of_Z y;
     scaleX := F32.one; scaleY := F32.one;
     collider := mkCollider (F32.of_Z side) (F32.of_Z side) l m |}.

(** Two overlapping squares; entity 1 only accepts the layer [Enemy], entity 2
    is on the layer [Terrain]. *)
Definition masked_entries : list ColliderEntry :=
  [square 1 0 0 10 Layer.Player Layer.Enemy; square 2 5 5 10 Layer.Terrain Layer.All].

Definition world_masked : CollisionWorld :=
  default newWorld (register_all masked_entries newWorld).

(** Entities 1, 2 and 3, registered in this order. *)
Definition three_entries : list ColliderEntry :=
  [square 1 0 0 10 Layer.Default Layer.All; square 2 5 5 10 Layer.Default Layer.All;
   square 3 40 40 10 Layer.Default Layer.All].

Definition world_three : CollisionWorld :=
  default newWorld (register_all three_entries newWorld).

(** Entity 1 alone. *)
Definition world_one : CollisionWorld :=
  default newWorld (register_all [square 1 0 0 10 Layer.Default Layer.All] newWorld).

(** Some content for an [outInfo] that is never written. *)
Definition blank_info : CollisionInfo :=
  {| entityA := 0; entityB := 0;
     boundsA := mkAABB F32.zero F32.zero F32.zero F32.zero;
     boundsB := mkAABB F32.zero F32.zero F32.zero F32.zero;
     overlapX := F32.zero; overlapY := F32.zero; info_isTrigger := false |}.

(** The world with other masks on its entries and another layer matrix. *)
Definition remask (f : ColliderEntry -> CollisionMask) (m : list Z) (w : CollisionWorld)
    : CollisionWorld :=
  {| colliders_ := map (fun e => with_mask (f e) e) (colliders_ w);
     entityIndexMap_ := entityIndexMap_ w;
     layerMatrix_ := m |}.

(** ** Rows of the layer matrix *)

(** [row |= l] or [row &= ~l]. *)
Definition row_update (r l : Z) (enabled : bool) : Z :=
  if enabled then Z.lor r l else Z.land r (not32 l).

(** Row [i] after iteration [i] of the loop of [setLayerCollisionEnabled]. *)
Definition row_after (l1 l2 : Z) (enabled : bool) (i : nat) (r : Z) : Z :=
  let r := if bit_set l1 i then row_update r l2 enabled else r in
  if bit_set l2 i then row_update r l1 enabled else r.

(** A sequence of calls of [setLayerCollisionEnabled]. *)
Definition set_layers (calls : list (CollisionLayer * CollisionLayer * bool))
    (w : CollisionWorld) : CollisionWorld :=
  fold_left (fun w '(l1, l2, enabled) => setLayerCollisionEnabled l1 l2 enabled w) calls w.

(** ** Further operations of collision.h, collision.cpp and collision_world.cpp *)

(** [operator|], [operator&] and [operator~] on [CollisionLayer]. *)
Definition layer_or (a b : CollisionLayer) : CollisionLayer := Z.lor a b.
Definition layer_and (a b : CollisionLayer) : CollisionLayer := Z.land a b.
Definition layer_not (a : CollisionLayer) : CollisionLayer := not32 a.

(** The layer with the single bit [i]. *)
Definition single_layer (i : nat) : CollisionLayer := Z.shiftl 1 (Z.of_nat i).

(** Bit [j] of row [i] is bit [i] of row [j], over the 8 layer bits. *)
Definition matrix_symmetric (m : list Z) : Prop :=
  forall i j : nat, (i < 8)%nat -> (j < 8)%nat ->
    Z.testbit (m !!! i) (Z.of_nat j) = Z.testbit (m !!! j) (Z.of_nat i).

(** [rebuildIndexMap]: the map is cleared and refilled in index order, a
    later entry overwriting an earlier one with the same identifier. *)
Definition rebuildIndexMap (w : CollisionWorld) : CollisionWorld :=
  let cs := colliders_ w in
  with_colliders w cs
    (for_range 0 (length cs) (fun i m =>
       match cs !! i with
       | Some e => <[entityId e := i]> m
       | None => m
       end) ∅).

(** The pair of identifiers of a result. *)
Definition info_pair (info : CollisionInfo) : EntityID * EntityID :=
  (entityA info, entityB info).

(** No handler installed, and a callback record with another trigger-exit
    handler. *)
Definition no_callbacks {S : Type} : Callbacks S :=
  {| onCollision_ := None; onTriggerEnter_ := None; onTriggerExit_ := None |}.

Definition with_trigger_exit {S : Type} (h : option (EntityID -> EntityID -> S -> S))
    (cb : Callbacks S) : Callbacks S :=
  {| onCollision_ := onCollision_ cb; onTriggerEnter_ := onTriggerEnter_ cb;
     onTriggerExit_ := h |}.

(** [std::isnan]. *)
Definition is_nan (x : float) : bool :=
  match x with
  | S754_nan => true
  | _ => false
  end.

(** [ColliderComponent::getBounds(entityX, entityY)], the overload without
    scale. *)
Definition ColliderComponent_getBounds2 (c : ColliderComponent) (entityX entityY : float)
    : AABB :=
  let bx := F32.add entityX (offsetX_ c) in
  let by_ := F32.add entityY (offsetY_ c) in
  mkAABB bx by_ (width_ c) (height_ c).

(** Two boxes far apart on the x axis: [A] is the point [(-2^25, 0)], [B]
    the unit square at the origin. *)
Definition far_left_box : AABB := mkAABB (F32.of_Z (-33554432)) F32.zero F32.zero F32.zero.
Definition unit_box : AABB := mkAABB F32.zero F32.zero F32.one F32.one.

(** The pair of identifiers [{a, b}] is reported by [detectCollisions], in
    one order or the other. *)
Definition pair_reported (w : CollisionWorld) (a b : EntityID) : Prop :=
  exists info, info ∈ detectCollisions w /\
    (info_pair info = (a, b) \/ info_pair info = (b, a)).

(** The values of a [uint32_t]. *)
Definition is_uint32 (z : Z) : Prop := 0 <= z < 2 ^ 32.
(** * Facts about binary32 arithmetic *)

Module F32Facts.

Lemma compare_antisym (a b : float) :
  SFcompare b a = CompOpp <$> SFcompare a b.
Proof.
  destruct a as [[]|[]| |[] ma ea], b as [[]|[]| |[] mb eb]; simpl; try reflexivity;
    rewrite (Z.compare_antisym eb ea); destruct (eb ?= ea); simpl; try reflexivity;
    pose proof (Pos.compare_cont_antisym ma mb Eq) as H; simpl in H; rewrite <- H;
    destruct (Pos.compare_cont Eq ma mb); reflexivity.
Qed.

Lemma ltb_irrefl (a : float) : F32.ltb a a = false.
Proof.
  unfold F32.ltb, SFltb. pose proof (compare_antisym a a) as H.
  destruct (SFcompare a a) as [[]|]; simpl in H; congruence.
Qed.

(** [a == b] excludes [a < b] and [b < a]. *)
Lemma eqb_not_ltb (a b : float) :
  F32.eqb a b = true -> F32.ltb a b = false /\ F32.ltb b a = false.
Proof.
  unfold F32.eqb, F32.ltb, SFeqb, SFltb. rewrite (compare_antisym a b).
  destruct (SFcompare a b) as [[]|]; simpl; intros; try discriminate; auto.
Qed.

(** [a == b] gives [a <= b] and [b <= a]. *)
Lemma eqb_leb (a b : float) :
  F32.eqb a b = true -> F32.leb a b = true /\ F32.leb b a = true.
Proof.
  unfold F32.eqb, F32.leb, SFeqb, SFleb. rewrite (compare_antisym a b).
  destruct (SFcompare a b) as [[]|]; simpl; intros; try discriminate; auto.
Qed.

(** Equal numbers compare alike against a third one (the two zeros are
    equal and compare alike). *)
Lemma eqb_compare_l (a b c : float) :
  F32.eqb a b = true -> SFcompare a c = SFcompare b c.
Proof.
  unfold F32.eqb, SFeqb.
  destruct a as [[]|[]| |[] ma ea], b as [[]|[]| |[] mb eb]; simpl; try discriminate;
    try reflexivity;
    destruct (ea ?= eb) eqn:E; try discriminate;
    destruct (Pos.compare_cont Eq ma mb) eqn:Em; try discriminate; intros _;
    apply Z.compare_eq in E; apply (Pos.compare_eq ma mb) in Em; subst; reflexivity.
Qed.

Lemma eqb_compare_r (a b c : float) :
  F32.eqb a b = true -> SFcompare c a = SFcompare c b.
Proof.
  intros H. rewrite (compare_antisym a c), (compare_antisym b c).
  rewrite (eqb_compare_l a b c H). reflexivity.
Qed.

Lemma ltb_leb (a b : float) : F32.ltb a b = true -> F32.leb a b = true.
Proof.
  unfold F32.ltb, F32.leb, SFltb, SFleb.
  destruct (SFcompare a b) as [[]|]; auto.
Qed.

Lemma digits2_pos_bounds (m : positive) :
  2 ^ (Z.pos (digits2_pos m) - 1) <= Z.pos m < 2 ^ Z.pos (digits2_pos m).
Proof.
  induction m as [m IH|m IH|]; simpl digits2_pos.
  - rewrite Pos2Z.inj_succ.
    replace (Z.succ (Z.pos (digits2_pos m)) - 1) with (Z.succ (Z.pos (digits2_pos m) - 1)) by lia.
    rewrite !Z.pow_succ_r by lia. lia.
  - rewrite Pos2Z.inj_succ.
    replace (Z.succ (Z.pos (digits2_pos m)) - 1) with (Z.succ (Z.pos (digits2_pos m) - 1)) by lia.
    rewrite !Z.pow_succ_r by lia. lia.
  - simpl. lia.
Qed.

Lemma iter_xO (m d : positive) : Z.pos (Pos.iter xO m d) = Z.pos m * 2 ^ Z.pos d.
Proof.
  change (Pos.iter xO m d) with (shift_pos d m).
  rewrite shift_pos_correct, Zpower_pos_powerRZ || rewrite shift_pos_correct.
  rewrite Z.pow_pos_fold. lia.
Qed.

(** Aligning a mantissa to a lower exponent multiplies it by a power of two. *)
Lemma shl_align_value (m : positive) (e ez : Z) :
  ez <= e -> Z.pos (fst (shl_align m e ez)) = Z.pos m * 2 ^ (e - ez).
Proof.
  intros Hle. unfold shl_align.
  destruct (ez - e) as [|d|d] eqn:E; simpl.
  - replace (e - ez) with 0 by lia. simpl. lia.
  - lia.
  - rewrite iter_xO. f_equal. f_equal. lia.
Qed.

Lemma bounded_digits (m : positive) (e : Z) :
  bounded F32.prec F32.emax m e = true ->
  Z.pos m < 2 ^ 24 /\ -149 <= e /\ (-149 < e -> 2 ^ 23 <= Z.pos m).
Proof.
  unfold bounded, canonical_mantissa, fexp, emin, F32.prec, F32.emax.
  intros H. apply andb_true_iff in H as [H _]. apply Z.eqb_eq in H.
  pose proof (digits2_pos_bounds m) as [Hlo Hhi].
  assert (Hd : Z.pos (digits2_pos m) <= 24) by lia.
  repeat split.
  - eapply Z.lt_le_trans; [exact Hhi|]. apply Z.pow_le_mono_r; lia.
  - lia.
  - intros He. assert (Z.pos (digits2_pos m) = 24) as Hd' by lia.
    rewrite Hd' in Hlo. exact Hlo.
Qed.

(** Among binary32 numbers the order on (exponent, mantissa) is the order
    on magnitudes. *)
Lemma magnitude_le (ma mb : positive) (ea eb : Z) :
  bounded F32.prec F32.emax ma ea = true ->
  bounded F32.prec F32.emax mb eb = true ->
  eb < ea \/ (eb = ea /\ Z.pos mb <= Z.pos ma) ->
  Z.pos (fst (shl_align mb eb (Z.min ea eb))) <= Z.pos (fst (shl_align ma ea (Z.min ea eb))).
Proof.
  intros Ha Hb Hlt.
  rewrite !shl_align_value by lia.
  apply bounded_digits in Ha as (Ha1 & Ha2 & Ha3).
  apply bounded_digits in Hb as (Hb1 & Hb2 & Hb3).
  destruct Hlt as [Hlt|[-> Hle]].
  - rewrite Z.min_r by lia. rewrite Z.sub_diag, Z.pow_0_r, Z.mul_1_r.
    assert (H2 : 2 ^ 1 <= 2 ^ (ea - eb)) by (apply Z.pow_le_mono_r; lia).
    change (2 ^ 1) with 2 in H2.
    specialize (Ha3 ltac:(lia)).
    change (2 ^ 24) with 16777216 in *. change (2 ^ 23) with 8388608 in *. nia.
  - rewrite Z.min_id, Z.sub_diag, Z.pow_0_r. lia.
Qed.

Lemma shr_1_nonneg (mrs : shr_record) : 0 <= shr_m mrs -> 0 <= shr_m (shr_1 mrs).
Proof.
  destruct mrs as [m r s]. simpl.
  destruct m as [|[p|p|]|[p|p|]]; simpl; lia.
Qed.

Lemma iter_shr_1_nonneg (n : positive) (mrs : shr_record) :
  0 <= shr_m mrs -> 0 <= shr_m (SpecFloat.iter_pos shr_1 n mrs).
Proof.
  revert mrs. induction n as [n IH|n IH|]; intros mrs H; simpl.
  - apply IH, IH, shr_1_nonneg, H.
  - apply IH, IH, H.
  - apply shr_1_nonneg, H.
Qed.

Lemma shr_fexp_nonneg (m e : Z) (l : location) :
  0 <= m -> 0 <= shr_m (fst (shr_fexp F32.prec F32.emax m e l)).
Proof.
  intros Hm. unfold shr_fexp, shr.
  assert (H0 : 0 <= shr_m (shr_record_of_loc m l)) by (destruct l as [|[]]; exact Hm).
  destruct (fexp F32.prec F32.emax (Zdigits2 m + e) - e); simpl; auto.
  apply iter_shr_1_nonneg, H0.
Qed.

Lemma round_nearest_even_nonneg (m : Z) (l : location) :
  0 <= m -> 0 <= round_nearest_even m l.
Proof.
  intros Hm. destruct l as [|[]]; simpl; try lia.
  destruct (Z.even m); lia.
Qed.

Lemma binary_round_aux_nonneg (m e : Z) (l : location) :
  0 <= m -> F32.nonneg (binary_round_aux F32.prec F32.emax false m e l).
Proof.
  intros Hm. unfold binary_round_aux.
  pose proof (shr_fexp_nonneg m e l Hm) as H1.
  destruct (shr_fexp F32.prec F32.emax m e l) as [mrs' e'] eqn:E1. simpl in H1.
  pose proof (shr_fexp_nonneg _ e' loc_Exact
                (round_nearest_even_nonneg _ (loc_of_shr_record mrs') H1)) as H2.
  destruct (shr_fexp F32.prec F32.emax _ e' loc_Exact) as [mrs'' e''] eqn:E2. simpl in H2.
  destruct (shr_m mrs'') as [|p|p]; [reflexivity| |lia].
  destruct (e'' <=? F32.emax - F32.prec); reflexivity.
Qed.

Lemma binary_normalize_nonneg (m e : Z) :
  0 <= m -> F32.nonneg (binary_normalize F32.prec F32.emax m e false).
Proof.
  intros Hm. destruct m as [|p|p]; [reflexivity| |lia].
  unfold binary_normalize, binary_round.
  destruct (shl_align p e _) as [mz ez].
  apply binary_round_aux_nonneg. lia.
Qed.

(** The property behind non-negative overlaps: between binary32 numbers
    [b < a] makes the rounded difference [a - b] non-negative. *)
Lemma sub_nonneg (a b : float) :
  F32.valid a -> F32.valid b -> F32.ltb b a = true -> F32.nonneg (F32.sub a b).
Proof.
  unfold F32.valid, F32.ltb, SFltb, F32.sub.
  destruct a as [[]|[]| |[] ma ea], b as [[]|[]| |[] mb eb];
    cbn [SFcompare SFsub valid_binary];
    intros Ha Hb Hlt; try discriminate; try reflexivity;
    apply binary_normalize_nonneg; unfold cond_Zopp.
  - destruct (eb ?= ea) eqn:E; try discriminate.
    + apply Z.compare_eq in E.
      destruct (Pos.compare_cont Eq mb ma) eqn:Em; try discriminate.
      change (Pos.compare_cont Eq mb ma) with (mb ?= ma)%positive in Em.
      pose proof (proj1 (Pos.compare_gt_iff mb ma) Em) as Hm.
      pose proof (magnitude_le mb ma eb ea Hb Ha) as H.
      rewrite (Z.min_comm eb ea) in H. lapply H; [lia|]. right. split; lia.
    + pose proof (proj1 (Z.compare_gt_iff eb ea) E) as He.
      pose proof (magnitude_le mb ma eb ea Hb Ha) as H.
      rewrite (Z.min_comm eb ea) in H. lapply H; [lia|]. left. lia.
  - lia.
  - destruct (eb ?= ea) eqn:E; try discriminate.
    + apply Z.compare_eq in E.
      destruct (Pos.compare_cont Eq mb ma) eqn:Em; try discriminate.
      change (Pos.compare_cont Eq mb ma) with (mb ?= ma)%positive in Em.
      pose proof (proj1 (Pos.compare_lt_iff mb ma) Em) as Hm.
      pose proof (magnitude_le ma mb ea eb Ha Hb) as H.
      lapply H; [lia|]. right. split; lia.
    + pose proof (proj1 (Z.compare_lt_iff eb ea) E) as He.
      pose proof (magnitude_le ma mb ea eb Ha Hb) as H.
      lapply H; [lia|]. left. lia.
Qed.

Lemma min_nonneg (a b : float) : F32.nonneg a -> F32.nonneg b -> F32.nonneg (F32.min a b).
Proof. unfold F32.min. destruct (F32.ltb b a); auto. Qed.

(** A number that is [>= 0] is not a NaN, so it compares with every other
    such number. *)
Lemma leb_total (a b : float) :
  F32.nonneg a -> F32.nonneg b -> F32.ltb b a = false -> F32.leb a b = true.
Proof.
  unfold F32.nonneg, F32.leb, F32.ltb, SFleb, SFltb. rewrite (compare_antisym a b).
  intros Ha Hb.
  destruct (SFcompare a b) as [[]|] eqn:E; simpl; try reflexivity; try discriminate.
  intros _. destruct a as [[]|[]| |[] ma ea], b as [[]|[]| |[] mb eb]; discriminate.
Qed.

Lemma leb_refl (a : float) : F32.nonneg a -> F32.leb a a = true.
Proof. intros H. apply leb_total; [exact H|exact H|apply ltb_irrefl]. Qed.

(** On non-negative numbers [std::min] is below both of its arguments. *)
Lemma min_le (a b : float) :
  F32.nonneg a -> F32.nonneg b ->
  F32.leb (F32.min a b) a = true /\ F32.leb (F32.min a b) b = true.
Proof.
  intros Ha Hb. unfold F32.min. destruct (F32.ltb b a) eqn:E.
  - split; [apply ltb_leb, E|apply leb_refl, Hb].
  - split; [apply leb_refl, Ha|apply leb_total; assumption].
Qed.

End F32Facts.

(** * Facts about the index map *)

Section IndexMap.

Implicit Types (w : CollisionWorld) (id : EntityID) (e : ColliderEntry).

Lemma index_map_lookup w id i :
  index_map_ok w -> entityIndexMap_ w !! id = Some i ->
  exists e, colliders_ w !! i = Some e /\ entityId e = id.
Proof. intros H Hm. apply H, Hm. Qed.

Lemma index_map_entry w i e :
  index_map_ok w -> colliders_ w !! i = Some e ->
  entityIndexMap_ w !! entityId e = Some i.
Proof. intros H Hc. apply H. eauto. Qed.

Lemma index_map_inj w i j e1 e2 :
  index_map_ok w -> colliders_ w !! i = Some e1 -> colliders_ w !! j = Some e2 ->
  entityId e1 = entityId e2 -> i = j.
Proof.
  intros H H1 H2 Heq.
  apply (index_map_entry w i e1 H) in H1. apply (index_map_entry w j e2 H) in H2.
  rewrite Heq in H1. congruence.
Qed.

Lemma index_map_NoDup w :
  index_map_ok w -> NoDup (entityId <$> colliders_ w).
Proof.
  intros H. apply NoDup_alt. intros i j id Hi Hj.
  rewrite list_lookup_fmap in Hi, Hj.
  destruct (colliders_ w !! i) as [e1|] eqn:E1; [|discriminate].
  destruct (colliders_ w !! j) as [e2|] eqn:E2; [|discriminate].
  simpl in Hi, Hj. eapply (index_map_inj w i j e1 e2); eauto. congruence.
Qed.

Lemma getCollider_entry_of w id :
  index_map_ok w -> getCollider id w = Some (entry_of w id).
Proof.
  intros H. unfold getCollider, entry_of.
  destruct (entityIndexMap_ w !! id) as [i|] eqn:E; [|reflexivity].
  destruct (index_map_lookup w id i H E) as (e & He & _). simpl. rewrite He. reflexivity.
Qed.

Lemma entry_of_Some w id e :
  index_map_ok w -> entry_of w id = Some e ->
  entityId e = id /\ exists i, entityIndexMap_ w !! id = Some i /\ colliders_ w !! i = Some e.
Proof.
  intros H. unfold entry_of.
  destruct (entityIndexMap_ w !! id) as [i|] eqn:E; [|discriminate]. simpl. intros He.
  destruct (index_map_lookup w id i H E) as (e' & He' & Hid).
  split; [congruence|eauto].
Qed.

Lemma hasCollider_true w id : hasCollider id w = true <-> is_Some (entityIndexMap_ w !! id).
Proof. unfold hasCollider. apply bool_decide_eq_true. Qed.

Lemma hasCollider_false w id : hasCollider id w = false <-> entityIndexMap_ w !! id = None.
Proof.
  unfold hasCollider. rewrite bool_decide_eq_false, <- eq_None_not_Some. reflexivity.
Qed.

Lemma index_map_ok_newWorld : index_map_ok newWorld.
Proof.
  intros id i. simpl. rewrite lookup_empty. split; [discriminate|].
  intros (e & He & _). discriminate.
Qed.

Lemma index_map_ok_clear w : index_map_ok (clear w).
Proof.
  intros id i. simpl. rewrite lookup_empty. split; [discriminate|].
  intros (e & He & _). discriminate.
Qed.

Lemma pop_back_Some {A} (l : list A) :
  l <> [] -> pop_back l = Some (take (length l - 1) l).
Proof.
  destruct l as [|a l]; [congruence|]. intros _. unfold pop_back.
  rewrite removelast_firstn_len. do 2 f_equal. simpl. lia.
Qed.

Lemma size_t_wrap_small (n : nat) :
  (0 < n)%nat -> Z.of_nat n < 2 ^ 64 -> size_t_wrap (Z.of_nat n - 1) = Z.of_nat n - 1.
Proof. intros Hn Hb. unfold size_t_wrap. apply Z.mod_small. lia. Qed.

(** What [removeCollider] leaves behind when the identifier is registered:
    the entry sequence shrinks by one, the identifier is gone, and every
    other identifier keeps its entry. *)
Lemma removeCollider_registered w id index :
  world_inv w -> entityIndexMap_ w !! id = Some index ->
  exists w', removeCollider id w = Some w' /\ world_inv w' /\
    S (length (colliders_ w')) = length (colliders_ w) /\
    entityIndexMap_ w' !! id = None /\
    layerMatrix_ w' = layerMatrix_ w /\
    forall id', id' <> id -> entry_of w' id' = entry_of w id'.
Proof.
  intros [Hok Hsz] Hm.
  destruct (index_map_lookup w id index Hok Hm) as (e & He & Hid).
  pose proof (lookup_lt_Some _ _ _ He) as Hlt.
  set (n := length (colliders_ w)) in *.
  assert (Hne : colliders_ w <> []) by (intros E; rewrite E in He; discriminate).
  assert (Hlast : exists back, colliders_ w !! (n - 1)%nat = Some back).
  { apply lookup_lt_is_Some. lia. }
  destruct Hlast as (back & Hback).
  unfold removeCollider. rewrite Hm. fold n.
  rewrite size_t_wrap_small by (unfold size_ok in Hsz; fold n in Hsz; lia).
  destruct (Z.of_nat index <? Z.of_nat n - 1) eqn:Hcmp.
  - (* the last entry moves into the hole *)
    apply Z.ltb_lt in Hcmp.
    rewrite last_lookup. fold n. replace (pred n) with (n - 1)%nat by lia.
    rewrite Hback, He. simpl.
    rewrite list_lookup_insert_eq by (fold n; lia). simpl.
    set (cs1 := <[index := back]> (colliders_ w)).
    assert (Hlen1 : length cs1 = n) by (unfold cs1; rewrite length_insert; reflexivity).
    rewrite pop_back_Some by (intros E; rewrite E in Hlen1; simpl in Hlen1; lia).
    simpl. rewrite Hlen1.
    assert (Hbid : entityId back <> id).
    { intros E. pose proof (index_map_entry w _ back Hok Hback) as Hb.
      rewrite E, Hm in Hb. injection Hb. lia. }
    assert (Hcs' : forall i, take (n - 1) cs1 !! i =
        if decide (i < n - 1)%nat then (if decide (i = index) then Some back else colliders_ w !! i)
        else None).
    { intros i. destruct (decide (i < n - 1)%nat) as [Hi|Hi].
      - rewrite lookup_take_lt by lia. unfold cs1.
        destruct (decide (i = index)) as [->|Hd].
        + apply list_lookup_insert_eq. fold n. lia.
        + apply list_lookup_insert_ne. congruence.
      - apply lookup_take_ge. lia. }
    assert (Hnew : index_map_ok
      (with_colliders w (take (n - 1) cs1)
         (delete id (<[entityId back := index]> (entityIndexMap_ w))))).
    { intros id' i. simpl. rewrite Hcs'. split.
      + intros Hl. apply lookup_delete_Some in Hl as [Hd Hl].
        apply lookup_insert_Some in Hl as [[<- <-]|[Hd' Hl]].
        * exists back. rewrite decide_True by lia. rewrite decide_True by reflexivity. auto.
        * destruct (index_map_lookup w id' i Hok Hl) as (e' & He' & Hid').
          pose proof (lookup_lt_Some _ _ _ He') as Hlt'. fold n in Hlt'.
          assert (i <> index) by (intros ->; rewrite He in He'; congruence).
          assert (i <> (n - 1)%nat) by (intros ->; rewrite Hback in He'; congruence).
          exists e'. rewrite decide_True by lia. rewrite decide_False by assumption. auto.
      + intros (e' & He' & Hid').
        destruct (decide (i < n - 1)%nat) as [Hi|Hi]; [|discriminate].
        destruct (decide (i = index)) as [->|Hd].
        * injection He' as <-. subst id'.
          rewrite lookup_delete_ne by congruence. apply lookup_insert_eq.
        * pose proof (index_map_entry w i e' Hok He') as Hl. rewrite Hid' in Hl.
          assert (id' <> id) by (intros ->; rewrite Hm in Hl; congruence).
          assert (id' <> entityId back).
          { intros ->. pose proof (index_map_entry w _ back Hok Hback) as Hb.
            rewrite Hl in Hb. injection Hb. lia. }
          rewrite lookup_delete_ne by congruence.
          rewrite lookup_insert_ne by congruence. exact Hl. }
    eexists. split; [reflexivity|]. split; [split; [exact Hnew|]|].
    { unfold size_ok in *. simpl. rewrite length_take. fold n in Hsz. lia. }
    simpl. rewrite length_take, Hlen1. repeat split.
    + fold n. lia.
    + apply lookup_delete_eq.
    + intros id' Hd. unfold entry_of. simpl.
      rewrite lookup_delete_ne by congruence.
      destruct (decide (id' = entityId back)) as [->|Hd'].
      * rewrite lookup_insert_eq. simpl. rewrite Hcs'.
        rewrite decide_True by lia. rewrite decide_True by reflexivity.
        rewrite (index_map_entry w _ back Hok Hback). simpl. rewrite Hback. reflexivity.
      * rewrite lookup_insert_ne by congruence.
        destruct (entityIndexMap_ w !! id') as [i|] eqn:El; [|reflexivity]. simpl.
        destruct (index_map_lookup w id' i Hok El) as (e' & He' & Hid').
        pose proof (lookup_lt_Some _ _ _ He') as Hlt'. fold n in Hlt'.
        assert (i <> index) by (intros ->; rewrite He in He'; congruence).
        assert (i <> (n - 1)%nat) by (intros ->; rewrite Hback in He'; congruence).
        rewrite Hcs'. rewrite decide_True by lia. rewrite decide_False by assumption.
        reflexivity.
  - (* the removed entry is the last one *)
    apply Z.ltb_ge in Hcmp. assert (index = (n - 1)%nat) as -> by lia.
    simpl. rewrite pop_back_Some by assumption. simpl. fold n.
    assert (Hcs' : forall i, take (n - 1) (colliders_ w) !! i =
        if decide (i < n - 1)%nat then colliders_ w !! i else None).
    { intros i. destruct (decide (i < n - 1)%nat) as [Hi|Hi].
      - apply lookup_take_lt. lia.
      - apply lookup_take_ge. lia. }
    assert (Hnew : index_map_ok
      (with_colliders w (take (n - 1) (colliders_ w)) (delete id (entityIndexMap_ w)))).
    { intros id' i. simpl. rewrite Hcs'. split.
      + intros Hl. apply lookup_delete_Some in Hl as [Hd Hl].
        destruct (index_map_lookup w id' i Hok Hl) as (e' & He' & Hid').
        pose proof (lookup_lt_Some _ _ _ He') as Hlt'. fold n in Hlt'.
        assert (i <> (n - 1)%nat) by (intros ->; rewrite He in He'; congruence).
        exists e'. rewrite decide_True by lia. auto.
      + intros (e' & He' & Hid').
        destruct (decide (i < n - 1)%nat) as [Hi|Hi]; [|discriminate].
        pose proof (index_map_entry w i e' Hok He') as Hl. rewrite Hid' in Hl.
        assert (id' <> id) by (intros ->; rewrite Hm in Hl; injection Hl; lia).
        rewrite lookup_delete_ne by congruence. exact Hl. }
    eexists. split; [reflexivity|]. split; [split; [exact Hnew|]|].
    { unfold size_ok in *. simpl. rewrite length_take. fold n in Hsz. lia. }
    simpl. rewrite length_take. repeat split.
    + fold n. lia.
    + apply lookup_delete_eq.
    + intros id' Hd. unfold entry_of. simpl.
      rewrite lookup_delete_ne by congruence.
      destruct (entityIndexMap_ w !! id') as [i|] eqn:El; [|reflexivity]. simpl.
      destruct (index_map_lookup w id' i Hok El) as (e' & He' & Hid').
      pose proof (lookup_lt_Some _ _ _ He') as Hlt'. fold n in Hlt'.
      assert (i <> (n - 1)%nat) by (intros ->; rewrite He in He'; congruence).
      rewrite Hcs'. rewrite decide_True by lia. reflexivity.
Qed.

Lemma removeCollider_unregistered w id :
  entityIndexMap_ w !! id = None -> removeCollider id w = Some w.
Proof. intros H. unfold removeCollider. rewrite H. reflexivity. Qed.

(** Appending an entry for an identifier that is not registered. *)
Lemma append_entry w e :
  world_inv w -> entityIndexMap_ w !! entityId e = None ->
  Z.of_nat (length (colliders_ w)) + 1 < 2 ^ 64 ->
  let cs := colliders_ w ++ [e] in
  let w' := with_colliders w cs (<[entityId e := (length cs - 1)%nat]> (entityIndexMap_ w)) in
  world_inv w' /\ entry_of w' (entityId e) = Some e /\
  forall id', id' <> entityId e -> entry_of w' id' = entry_of w id'.
Proof.
  intros [Hok Hsz] Hnone Hcap cs w'.
  assert (Hlen : (length cs - 1)%nat = length (colliders_ w)).
  { unfold cs. rewrite length_app. simpl. lia. }
  assert (Hlast : cs !! length (colliders_ w) = Some e).
  { unfold cs. rewrite lookup_app_r by lia. rewrite Nat.sub_diag. reflexivity. }
  split; [split|split].
  - intros id' i. unfold w'. simpl. rewrite Hlen. split.
    + intros Hl. apply lookup_insert_Some in Hl as [[<- <-]|[Hd Hl]].
      * eauto.
      * destruct (index_map_lookup w id' i Hok Hl) as (e' & He' & Hid').
        exists e'. split; [|assumption]. unfold cs. apply lookup_app_l_Some, He'.
    + intros (e' & He' & Hid'). unfold cs in He'.
      apply lookup_app_Some in He' as [He'|[Hge He']].
      * pose proof (index_map_entry w i e' Hok He') as Hl. rewrite Hid' in Hl.
        rewrite lookup_insert_ne by (intros <-; congruence). exact Hl.
      * destruct (i - length (colliders_ w))%nat as [|k] eqn:Ek; [|discriminate].
        injection He' as <-. subst id'. assert (i = length (colliders_ w)) as -> by lia.
        apply lookup_insert_eq.
  - unfold size_ok, w'. simpl. unfold cs. rewrite length_app. simpl. lia.
  - unfold entry_of, w'. simpl. rewrite lookup_insert_eq. simpl. rewrite Hlen. exact Hlast.
  - intros id' Hd. unfold entry_of, w'. simpl.
    rewrite lookup_insert_ne by congruence.
    destruct (entityIndexMap_ w !! id') as [i|] eqn:El; [|reflexivity]. simpl.
    destruct (index_map_lookup w id' i Hok El) as (e' & He' & Hid').
    rewrite He'. unfold cs. apply lookup_app_l_Some, He'.
Qed.

(** [addCollider] registers or replaces: afterwards the identifier resolves
    to the new entry, the other identifiers to their old ones. *)
Lemma addCollider_spec w id x y sx sy col :
  world_inv w -> Z.of_nat (length (colliders_ w)) + 1 < 2 ^ 64 ->
  let e := {| entityId := id; posX := x; posY := y; scaleX := sx; scaleY := sy;
              collider := col |} in
  exists w', addCollider id x y sx sy col w = Some w' /\ world_inv w' /\
    entry_of w' id = Some e /\
    (forall id', id' <> id -> entry_of w' id' = entry_of w id') /\
    length (colliders_ w') =
      (if hasCollider id w then length (colliders_ w) else S (length (colliders_ w))) /\
    last (colliders_ w') = Some e /\
    layerMatrix_ w' = layerMatrix_ w.
Proof.
  intros Hinv Hcap e. unfold addCollider.
  destruct (decide (is_Some (entityIndexMap_ w !! id))) as [[index Hm]|Hnone].
  - destruct (removeCollider_registered w id index Hinv Hm)
      as (w1 & -> & Hinv1 & Hlen1 & Hnone1 & Hmat1 & Hother1).
    simpl.
    destruct (append_entry w1 e Hinv1 Hnone1 ltac:(lia)) as (Hinv' & Hid' & Hother').
    eexists. split; [reflexivity|]. split; [exact Hinv'|]. split; [exact Hid'|].
    split; [|split; [|split]].
    + intros id' Hd. rewrite <- Hother1 by assumption. apply Hother'. exact Hd.
    + simpl. rewrite length_app. simpl.
      replace (hasCollider id w) with true
        by (symmetry; apply hasCollider_true; eauto). lia.
    + simpl. apply last_snoc.
    + simpl. exact Hmat1.
  - apply eq_None_not_Some in Hnone. simpl.
    destruct (append_entry w e Hinv Hnone Hcap) as (Hinv' & Hid' & Hother').
    eexists. split; [reflexivity|]. split; [exact Hinv'|]. split; [exact Hid'|].
    split; [exact Hother'|]. split; [|split].
    + simpl. rewrite length_app. simpl.
      replace (hasCollider id w) with false
        by (symmetry; apply hasCollider_false; assumption). lia.
    + simpl. apply last_snoc.
    + reflexivity.
Qed.

(** In-place updates keep every identifier at its index. *)
Lemma update_entry w i e e' :
  world_inv w -> colliders_ w !! i = Some e -> entityId e' = entityId e ->
  let w' := with_colliders w (<[i := e']> (colliders_ w)) (entityIndexMap_ w) in
  world_inv w' /\ entry_of w' (entityId e) = Some e' /\
  forall id', id' <> entityId e -> entry_of w' id' = entry_of w id'.
Proof.
  intros [Hok Hsz] He Hid w'.
  pose proof (lookup_lt_Some _ _ _ He) as Hlt.
  split; [split|split].
  - intros id' j. unfold w'. simpl. rewrite (Hok id' j).
    destruct (decide (i = j)) as [<-|Hd].
    + rewrite list_lookup_insert_eq by assumption. rewrite He.
      split; intros (e0 & [= <-] & <-); eauto.
    + rewrite list_lookup_insert_ne by assumption. reflexivity.
  - unfold size_ok, w'. simpl. rewrite length_insert. exact Hsz.
  - unfold entry_of, w'. simpl. rewrite (index_map_entry w i e Hok He). simpl.
    apply list_lookup_insert_eq, Hlt.
  - intros id' Hd. unfold entry_of, w'. simpl.
    destruct (entityIndexMap_ w !! id') as [j|] eqn:El; [|reflexivity]. simpl.
    destruct (index_map_lookup w id' j Hok El) as (e0 & He0 & Hid0).
    apply list_lookup_insert_ne. intros <-. rewrite He in He0. congruence.
Qed.

Lemma updatePosition_spec w id x y :
  world_inv w ->
  exists w', updatePosition id x y w = Some w' /\ world_inv w' /\
    length (colliders_ w') = length (colliders_ w) /\
    (forall id', id' <> id -> entry_of w' id' = entry_of w id') /\
    match entry_of w id with
    | Some e => entry_of w' id =
        Some {| entityId := id; posX := x; posY := y; scaleX := scaleX e;
                scaleY := scaleY e; collider := collider e |}
    | None => w' = w
    end.
Proof.
  intros Hinv. unfold updatePosition, entry_of.
  destruct (entityIndexMap_ w !! id) as [i|] eqn:El; simpl.
  - destruct (index_map_lookup w id i (proj1 Hinv) El) as (e & He & Hid).
    rewrite He. simpl.
    destruct (update_entry w i e
      {| entityId := entityId e; posX := x; posY := y; scaleX := scaleX e;
         scaleY := scaleY e; collider := collider e |} Hinv He eq_refl)
      as (Hinv' & Hself & Hother).
    eexists. split; [reflexivity|]. split; [exact Hinv'|]. split; [|split].
    + simpl. apply length_insert.
    + intros id' Hd. apply Hother. congruence.
    + subst id. unfold entry_of in Hself. exact Hself.
  - exists w. split; [reflexivity|]. split; [exact Hinv|]. auto.
Qed.

Lemma updateScale_spec w id sx sy :
  world_inv w ->
  exists w', updateScale id sx sy w = Some w' /\ world_inv w' /\
    length (colliders_ w') = length (colliders_ w) /\
    (forall id', id' <> id -> entry_of w' id' = entry_of w id') /\
    match entry_of w id with
    | Some e => entry_of w' id =
        Some {| entityId := id; posX := posX e; posY := posY e; scaleX := sx;
                scaleY := sy; collider := collider e |}
    | None => w' = w
    end.
Proof.
  intros Hinv. unfold updateScale, entry_of.
  destruct (entityIndexMap_ w !! id) as [i|] eqn:El; simpl.
  - destruct (index_map_lookup w id i (proj1 Hinv) El) as (e & He & Hid).
    rewrite He. simpl.
    destruct (update_entry w i e
      {| entityId := entityId e; posX := posX e; posY := posY e; scaleX := sx;
         scaleY := sy; collider := collider e |} Hinv He eq_refl)
      as (Hinv' & Hself & Hother).
    eexists. split; [reflexivity|]. split; [exact Hinv'|]. split; [|split].
    + simpl. apply length_insert.
    + intros id' Hd. apply Hother. congruence.
    + subst id. unfold entry_of in Hself. exact Hself.
  - exists w. split; [reflexivity|]. split; [exact Hinv|]. auto.
Qed.

Lemma world_inv_newWorld : world_inv newWorld.
Proof. split; [apply index_map_ok_newWorld|]. unfold size_ok. simpl. lia. Qed.

Lemma world_inv_clear w : world_inv (clear w).
Proof. split; [apply index_map_ok_clear|]. unfold size_ok. simpl. lia. Qed.

End IndexMap.

(** The sample worlds are consistent. *)
Lemma register_all_inv (es : list ColliderEntry) (w w' : CollisionWorld) :
  world_inv w ->
  Z.of_nat (length (colliders_ w)) + Z.of_nat (length es) < 2 ^ 64 ->
  register_all es w = Some w' -> world_inv w'.
Proof.
  revert w. induction es as [|e es IH]; intros w Hinv Hcap; simpl.
  - intros [= <-]. exact Hinv.
  - simpl in Hcap.
    destruct (addCollider_spec w (entityId e) (posX e) (posY e) (scaleX e) (scaleY e)
                (collider e) Hinv ltac:(lia)) as (w1 & -> & Hinv1 & _ & _ & Hlen & _).
    simpl. apply IH; [exact Hinv1|].
    rewrite Hlen. destruct (hasCollider (entityId e) w); lia.
Qed.

Lemma world_inv_world_one : world_inv world_one.
Proof.
  apply (register_all_inv [square 1 0 0 10 Layer.Default Layer.All] newWorld);
    [apply world_inv_newWorld|simpl; lia|vm_compute; reflexivity].
Qed.

Lemma world_inv_world_three : world_inv world_three.
Proof.
  apply (register_all_inv three_entries newWorld);
    [apply world_inv_newWorld|simpl; lia|vm_compute; reflexivity].
Qed.

Lemma world_inv_world_masked : world_inv world_masked.
Proof.
  apply (register_all_inv masked_entries newWorld);
    [apply world_inv_newWorld|simpl; lia|vm_compute; reflexivity].
Qed.

(** * Facts about the detection loops *)

Section Loops.

Context {A B : Type}.

(** A loop that pushes [g x] for the elements that pass [p]. *)
Lemma fold_left_push (p : A -> bool) (g : A -> B) (l : list A) (acc : list B) :
  fold_left (fun results x => if p x then results ++ [g x] else results) l acc =
  acc ++ map g (List.filter p l).
Proof.
  revert acc. induction l as [|x l IH]; intros acc; simpl.
  - rewrite app_nil_r. reflexivity.
  - rewrite IH. destruct (p x); simpl; [|reflexivity].
    rewrite <- app_assoc. reflexivity.
Qed.

(** An index loop over the tail of a vector is a loop over its elements. *)
Lemma fold_left_seq_lookup (f : B -> A -> B) (pre l : list A) (acc : B) :
  fold_left (fun acc j => match (pre ++ l) !! j with Some x => f acc x | None => acc end)
    (seq (length pre) (length l)) acc =
  fold_left f l acc.
Proof.
  revert pre acc. induction l as [|x l IH]; intros pre acc; simpl; [reflexivity|].
  rewrite lookup_app_r by lia. rewrite Nat.sub_diag. simpl.
  specialize (IH (pre ++ [x]) (f acc x)).
  rewrite length_app, <- app_assoc in IH. simpl in IH.
  rewrite Nat.add_1_r in IH. exact IH.
Qed.

Lemma fold_left_pointwise (f g : B -> A -> B) (l : list A) (acc : B) :
  (forall acc x, f acc x = g acc x) -> fold_left f l acc = fold_left g l acc.
Proof.
  intros H. revert acc. induction l as [|x l IH]; intros acc; simpl; [reflexivity|].
  rewrite H. apply IH.
Qed.

End Loops.

Lemma detect_inner_eq (pre rest : list ColliderEntry) (a : ColliderEntry)
    (results : list CollisionInfo) :
  detect_inner (pre ++ a :: rest) (length pre) a results =
  results ++ map (pair_info a) (List.filter (entries_intersect a) rest).
Proof.
  unfold detect_inner, for_range.
  replace (length (pre ++ a :: rest) - S (length pre))%nat with (length rest)
    by (rewrite length_app; simpl; lia).
  replace (S (length pre)) with (length (pre ++ [a])) by (rewrite length_app; simpl; lia).
  replace (pre ++ a :: rest) with ((pre ++ [a]) ++ rest) by (rewrite <- app_assoc; reflexivity).
  rewrite (fold_left_seq_lookup
    (fun results b =>
       if AABB_intersects (getBounds a) (getBounds b)
       then results ++ [mkCollisionInfo (entityId a) (entityId b) (getBounds a) (getBounds b)
                          (isTrigger (collider a) || isTrigger (collider b))]
       else results)).
  apply (fold_left_push (entries_intersect a) (pair_info a)).
Qed.

Lemma detect_outer_eq (pre rest : list ColliderEntry) (results : list CollisionInfo) :
  fold_left (fun results i =>
      match (pre ++ rest) !! i with
      | Some a => detect_inner (pre ++ rest) i a results
      | None => results
      end) (seq (length pre) (length rest)) results =
  results ++ detect_pairs rest.
Proof.
  revert pre results. induction rest as [|a rest IH]; intros pre results; simpl.
  - rewrite app_nil_r. reflexivity.
  - rewrite lookup_app_r by lia. rewrite Nat.sub_diag. simpl.
    rewrite detect_inner_eq.
    specialize (IH (pre ++ [a])
      (results ++ map (pair_info a) (List.filter (entries_intersect a) rest))).
    rewrite length_app, <- app_assoc in IH. simpl in IH.
    rewrite Nat.add_1_r in IH. rewrite IH, <- app_assoc. reflexivity.
Qed.

(** [detectCollisions] collects, in scan order, the intersecting pairs
    [(i, j)], [i < j]. *)
Lemma detectCollisions_eq (w : CollisionWorld) :
  detectCollisions w = detect_pairs (colliders_ w).
Proof.
  unfold detectCollisions, for_range. rewrite Nat.sub_0_r.
  apply (detect_outer_eq [] (colliders_ w) []).
Qed.

Lemma detect_pairs_elem (cs : list ColliderEntry) (info : CollisionInfo) :
  info ∈ detect_pairs cs <->
  exists i j a b, (i < j)%nat /\ cs !! i = Some a /\ cs !! j = Some b /\
    entries_intersect a b = true /\ info = pair_info a b.
Proof.
  induction cs as [|c cs IH]; simpl.
  - split; [intros H; inversion H|].
    intros (i & j & a & b & _ & H & _). discriminate.
  - rewrite elem_of_app, IH. split.
    + intros [H|(i & j & a & b & Hij & Ha & Hb & Hint & ->)].
      * apply list_elem_of_In, in_map_iff in H as (b & <- & Hb).
        apply filter_In in Hb as [Hb Hint].
        apply list_elem_of_In, list_elem_of_lookup in Hb as [j Hj].
        exists 0%nat, (S j), c, b. repeat split; auto. lia.
      * exists (S i), (S j), a, b. repeat split; auto. lia.
    + intros (i & j & a & b & Hij & Ha & Hb & Hint & ->).
      destruct j as [|j]; [lia|]. simpl in Hb.
      destruct i as [|i]; simpl in Ha.
      * injection Ha as ->. left.
        apply list_elem_of_In, in_map_iff. exists b. split; [reflexivity|].
        apply filter_In. split; [|assumption].
        apply list_elem_of_In, list_elem_of_lookup. eauto.
      * right. exists i, j, a, b. repeat split; auto. lia.
Qed.

(** [detectCollisionsForEntity] never fails on a consistent world and
    collects the entries that pass the identifier, intersection and mask
    tests against the target. *)
Lemma detectCollisionsForEntity_eq (w : CollisionWorld) (id : EntityID) :
  index_map_ok w ->
  detectCollisionsForEntity id w =
  Some match entry_of w id with
       | Some target =>
         map (pair_info target) (List.filter (reported_for id target) (colliders_ w))
       | None => []
       end.
Proof.
  intros Hok. unfold detectCollisionsForEntity, entry_of.
  destruct (entityIndexMap_ w !! id) as [idx|] eqn:El; simpl; [|reflexivity].
  destruct (index_map_lookup w id idx Hok El) as (target & Ht & Hid).
  rewrite Ht. simpl. f_equal.
  rewrite <- (app_nil_l (map _ _)).
  rewrite <- (fold_left_push (reported_for id target) (pair_info target)).
  apply fold_left_pointwise. intros results other.
  unfold reported_for, entries_intersect, pair_info.
  destruct (entityId other =? id)%N; simpl; [reflexivity|].
  destruct (AABB_intersects _ _); simpl; [|reflexivity].
  destruct (canCollideWith _ _); reflexivity.
Qed.

(** The all-pairs scan reads neither the masks nor the layer matrix. *)
Lemma detect_pairs_with_mask (f : ColliderEntry -> CollisionMask) (cs : list ColliderEntry) :
  detect_pairs (map (fun e => with_mask (f e) e) cs) = detect_pairs cs.
Proof.
  induction cs as [|a cs IH]; simpl; [reflexivity|]. rewrite IH. f_equal.
  clear IH. induction cs as [|b cs IH]; simpl; [reflexivity|].
  change (entries_intersect (with_mask (f a) a) (with_mask (f b) b))
    with (entries_intersect a b).
  destruct (entries_intersect a b); simpl; rewrite IH; reflexivity.
Qed.

Lemma detectCollisions_remask (f : ColliderEntry -> CollisionMask) (m : list Z)
    (w : CollisionWorld) :
  detectCollisions (remask f m w) = detectCollisions w.
Proof. rewrite !detectCollisions_eq. apply detect_pairs_with_mask. Qed.

(** * Geometry: intersection is strict, containment is inclusive *)

Lemma AABB_intersects_iff (A B : AABB) :
  AABB_intersects A B = true <->
  F32.ltb (AABB_left A) (AABB_right B) = true /\
  F32.ltb (AABB_left B) (AABB_right A) = true /\
  F32.ltb (AABB_top A) (AABB_bottom B) = true /\
  F32.ltb (AABB_top B) (AABB_bottom A) = true.
Proof. unfold AABB_intersects. rewrite !andb_true_iff. tauto. Qed.

Lemma AABB_intersects_sym (A B : AABB) : AABB_intersects A B = AABB_intersects B A.
Proof.
  unfold AABB_intersects.
  destruct (F32.ltb (AABB_left A) (AABB_right B)), (F32.ltb (AABB_left B) (AABB_right A)),
    (F32.ltb (AABB_top A) (AABB_bottom B)), (F32.ltb (AABB_top B) (AABB_bottom A));
    reflexivity.
Qed.

Lemma AABB_contains_iff (b : AABB) (px py : float) :
  AABB_contains b px py = true <->
  F32.leb (AABB_left b) px = true /\ F32.leb px (AABB_right b) = true /\
  F32.leb (AABB_top b) py = true /\ F32.leb py (AABB_bottom b) = true.
Proof. unfold AABB_contains. rewrite !andb_true_iff. tauto. Qed.

(** C5. [intersects(A, B)] holds exactly when the four strict comparisons
    [A.left < B.right], [A.right > B.left], [A.top < B.bottom] and
    [A.bottom > B.top] hold; two boxes one of whose edges equals the facing
    edge of the other do not intersect, as [(0,0,10,10)] and [(10,0,10,10)]. *)
Theorem intersects_strict :
  (forall A B : AABB,
     AABB_intersects A B = true <->
     F32.ltb (AABB_left A) (AABB_right B) = true /\
     F32.ltb (AABB_left B) (AABB_right A) = true /\
     F32.ltb (AABB_top A) (AABB_bottom B) = true /\
     F32.ltb (AABB_top B) (AABB_bottom A) = true) /\
  (forall A B : AABB,
     F32.eqb (AABB_right A) (AABB_left B) = true \/
     F32.eqb (AABB_left A) (AABB_right B) = true \/
     F32.eqb (AABB_bottom A) (AABB_top B) = true \/
     F32.eqb (AABB_top A) (AABB_bottom B) = true ->
     AABB_intersects A B = false) /\
  AABB_intersects (mkAABB (F32.of_Z 0) (F32.of_Z 0) (F32.of_Z 10) (F32.of_Z 10))
                  (mkAABB (F32.of_Z 10) (F32.of_Z 0) (F32.of_Z 10) (F32.of_Z 10)) = false.
Proof.
  split; [exact AABB_intersects_iff|]. split; [|reflexivity].
  intros A B H. unfold AABB_intersects.
  destruct H as [H|[H|[H|H]]]; apply F32Facts.eqb_not_ltb in H as [H1 H2].
  - rewrite H2. rewrite andb_false_r. reflexivity.
  - rewrite H1. reflexivity.
  - rewrite H2. rewrite andb_false_r. reflexivity.
  - rewrite H1. rewrite andb_false_r. reflexivity.
Qed.

(** * Spatial queries *)

(** C8. [queryAABB(B, F)] returns, for every filter [F], what it returns for
    [All]: the identifiers, in entry order, of the entries whose world box
    intersects [B]. *)
Theorem queryAABB_filter_inert (w : CollisionWorld) (B : AABB) (F : CollisionLayer) :
  queryAABB B F w = queryAABB B Layer.All w /\
  queryAABB1 B w = queryAABB B F w /\
  queryAABB B F w =
    map entityId (List.filter (fun e => AABB_intersects B (getBounds e)) (colliders_ w)).
Proof.
  split; [reflexivity|]. split; [reflexivity|].
  unfold queryAABB.
  apply (fold_left_push (fun e => AABB_intersects B (getBounds e)) entityId (colliders_ w) []).
Qed.

Lemma hasLayer_iff (mask l : CollisionLayer) : hasLayer mask l = true <-> Z.land mask l <> 0.
Proof.
  unfold hasLayer, Layer.None. rewrite negb_true_iff, Z.eqb_neq. reflexivity.
Qed.

Lemma queryPoint_eq (w : CollisionWorld) (px py : float) (F : CollisionLayer) :
  queryPoint px py F w =
  map entityId
    (List.filter (fun e => AABB_contains (getBounds e) px py &&
                           hasLayer F (getLayer (collider e))) (colliders_ w)).
Proof.
  unfold queryPoint.
  rewrite <- (app_nil_l (map _ _)), <- fold_left_push.
  apply fold_left_pointwise. intros results e.
  destruct (AABB_contains _ _ _), (hasLayer _ _); reflexivity.
Qed.

(** A point on a vertical or horizontal edge of a box is contained. *)
Lemma AABB_contains_edge (b : AABB) (px py : float) :
  (F32.leb (AABB_left b) (AABB_right b) = true /\
   (F32.eqb px (AABB_left b) = true \/ F32.eqb px (AABB_right b) = true) /\
   F32.leb (AABB_top b) py = true /\ F32.leb py (AABB_bottom b) = true) \/
  (F32.leb (AABB_top b) (AABB_bottom b) = true /\
   (F32.eqb py (AABB_top b) = true \/ F32.eqb py (AABB_bottom b) = true) /\
   F32.leb (AABB_left b) px = true /\ F32.leb px (AABB_right b) = true) ->
  AABB_contains b px py = true.
Proof.
  assert (Hedge : forall lo hi p,
    F32.leb lo hi = true -> F32.eqb p lo = true \/ F32.eqb p hi = true ->
    F32.leb lo p = true /\ F32.leb p hi = true).
  { intros lo hi p Hle [He|He].
    - split; [apply (F32Facts.eqb_leb p lo He)|].
      unfold F32.leb, SFleb in *. rewrite (F32Facts.eqb_compare_l p lo hi He). exact Hle.
    - split; [|apply (F32Facts.eqb_leb p hi He)].
      unfold F32.leb, SFleb in *. rewrite (F32Facts.eqb_compare_r p hi lo He). exact Hle. }
  intros [(Hle & He & Ht & Hb)|(Hle & He & Hl & Hr)]; apply AABB_contains_iff.
  - destruct (Hedge _ _ _ Hle He). auto.
  - destruct (Hedge _ _ _ Hle He). auto.
Qed.

(** C9. [queryPoint(x, y, F)] returns, in entry order, the identifiers of the
    entries whose world box contains the point under the inclusive
    comparisons and whose layer shares a bit with [F]; the two-argument
    overload is the query with [F = All]; a point on an edge or a corner of a
    box is contained, so it is reported when the layer test passes, as the
    corner [(10, 10)] of the square [(0, 0, 10, 10)] of entity 1. *)
Theorem queryPoint_spec (w : CollisionWorld) (px py : float) (F : CollisionLayer) :
  queryPoint px py F w =
    map entityId
      (List.filter (fun e => AABB_contains (getBounds e) px py &&
                             hasLayer F (getLayer (collider e))) (colliders_ w)) /\
  (forall b : AABB,
     AABB_contains b px py = true <->
     F32.leb (AABB_left b) px = true /\ F32.leb px (AABB_right b) = true /\
     F32.leb (AABB_top b) py = true /\ F32.leb py (AABB_bottom b) = true) /\
  (forall l : CollisionLayer, hasLayer F l = true <-> Z.land F l <> 0) /\
  queryPoint2 px py w = queryPoint px py Layer.All w /\
  (forall e : ColliderEntry,
     e ∈ colliders_ w ->
     let b := getBounds e in
     (F32.leb (AABB_left b) (AABB_right b) = true /\
      (F32.eqb px (AABB_left b) = true \/ F32.eqb px (AABB_right b) = true) /\
      F32.leb (AABB_top b) py = true /\ F32.leb py (AABB_bottom b) = true) \/
     (F32.leb (AABB_top b) (AABB_bottom b) = true /\
      (F32.eqb py (AABB_top b) = true \/ F32.eqb py (AABB_bottom b) = true) /\
      F32.leb (AABB_left b) px = true /\ F32.leb px (AABB_right b) = true) ->
     Z.land Layer.All (getLayer (collider e)) <> 0 ->
     entityId e ∈ queryPoint2 px py w) /\
  AABB_contains (mkAABB (F32.of_Z 0) (F32.of_Z 0) (F32.of_Z 10) (F32.of_Z 10))
    (F32.of_Z 10) (F32.of_Z 10) = true /\
  queryPoint2 (F32.of_Z 10) (F32.of_Z 10) world_three = [1%N; 2%N].
Proof.
  split; [apply queryPoint_eq|]. split; [intros b; apply AABB_contains_iff|].
  split; [intros l; apply hasLayer_iff|]. split; [reflexivity|].
  split; [|split; [reflexivity|vm_compute; reflexivity]].
  intros e He b Hedge Hl. unfold queryPoint2. rewrite queryPoint_eq.
  apply list_elem_of_In, in_map_iff. exists e. split; [reflexivity|].
  apply filter_In. split; [apply list_elem_of_In, He|].
  apply andb_true_iff. split; [apply AABB_contains_edge, Hedge|apply hasLayer_iff, Hl].
Qed.

(** * Pairwise checks and the two detection entry points *)

Lemma entry_of_index (w : CollisionWorld) (i : nat) (e : ColliderEntry) :
  index_map_ok w -> colliders_ w !! i = Some e -> entry_of w (entityId e) = Some e.
Proof.
  intros Hok He. unfold entry_of. rewrite (index_map_entry w i e Hok He). exact He.
Qed.

Lemma hasCollider_false_entry (w : CollisionWorld) (id : EntityID) :
  index_map_ok w -> hasCollider id w = false <-> entry_of w id = None.
Proof.
  intros Hok. rewrite hasCollider_false. unfold entry_of.
  destruct (entityIndexMap_ w !! id) as [i|] eqn:E; simpl; [|tauto].
  destruct (index_map_lookup w id i Hok E) as (e & He & _). rewrite He.
  split; discriminate.
Qed.

Lemma checkCollision_eq (w : CollisionWorld) (a b : EntityID) (outInfo : CollisionInfo) :
  index_map_ok w ->
  checkCollision a b outInfo w =
  Some match entry_of w a, entry_of w b with
       | Some ea, Some eb =>
         if entries_intersect ea eb &&
            canCollideWith (getCollisionMask (collider ea)) (getCollisionMask (collider eb))
         then (true, mkCollisionInfo a b (getBounds ea) (getBounds eb)
                       (isTrigger (collider ea) || isTrigger (collider eb)))
         else (false, outInfo)
       | _, _ => (false, outInfo)
       end.
Proof.
  intros Hok. unfold checkCollision, entry_of, entries_intersect.
  destruct (entityIndexMap_ w !! a) as [ia|] eqn:Ea; simpl; [|reflexivity].
  destruct (index_map_lookup w a ia Hok Ea) as (ea & Hea & _). rewrite Hea. simpl.
  destruct (entityIndexMap_ w !! b) as [ib|] eqn:Eb; simpl; [|reflexivity].
  destruct (index_map_lookup w b ib Hok Eb) as (eb & Heb & _). rewrite Heb. simpl.
  destruct (AABB_intersects _ _); simpl; [|reflexivity].
  destruct (canCollideWith _ _); reflexivity.
Qed.

(** The shape of the rejecting cases of [checkCollision_spec]. *)
Local Ltac rejected why :=
  match goal with
  | |- exists (r : bool) (out' : CollisionInfo), Some (_, ?out) = _ /\ _ =>
    exists false, out; split; [reflexivity|]; split; [reflexivity|];
    split; [split; [intros _; why|reflexivity]|]; split; [discriminate|reflexivity]
  end.

(** C4. On a consistent world [checkCollision(a, b, outInfo)] returns; it
    returns false exactly when [a] or [b] is unregistered, or the two world
    boxes do not intersect, or the mask of [a] does not accept the layer of
    [b]; on true, [outInfo] holds the two identifiers, the two world boxes,
    the overlap depths and the OR of the trigger flags; on false, [outInfo]
    is what it was. *)
Theorem checkCollision_spec (w : CollisionWorld) (a b : EntityID) (outInfo : CollisionInfo) :
  index_map_ok w ->
  exists (r : bool) (out' : CollisionInfo),
    checkCollision a b outInfo w = Some (r, out') /\
    checkCollision2 a b outInfo w = Some r /\
    (r = false <->
       hasCollider a w = false \/ hasCollider b w = false \/
       exists ea eb, getCollider a w = Some (Some ea) /\ getCollider b w = Some (Some eb) /\
         (AABB_intersects (getBounds ea) (getBounds eb) = false \/
          canCollideWith (getCollisionMask (collider ea))
                         (getCollisionMask (collider eb)) = false)) /\
    (r = true ->
       exists ea eb, getCollider a w = Some (Some ea) /\ getCollider b w = Some (Some eb) /\
         entityA out' = a /\ entityB out' = b /\
         boundsA out' = getBounds ea /\ boundsB out' = getBounds eb /\
         overlapX out' =
           F32.min (F32.sub (AABB_right (getBounds ea)) (AABB_left (getBounds eb)))
                   (F32.sub (AABB_right (getBounds eb)) (AABB_left (getBounds ea))) /\
         overlapY out' =
           F32.min (F32.sub (AABB_bottom (getBounds ea)) (AABB_top (getBounds eb)))
                   (F32.sub (AABB_bottom (getBounds eb)) (AABB_top (getBounds ea))) /\
         info_isTrigger out' = isTrigger (collider ea) || isTrigger (collider eb)) /\
    (r = false -> out' = outInfo).
Proof.
  intros Hok. unfold checkCollision2. rewrite (checkCollision_eq w a b outInfo Hok).
  pose proof (hasCollider_false_entry w a Hok) as Hha.
  pose proof (hasCollider_false_entry w b Hok) as Hhb.
  pose proof (getCollider_entry_of w a Hok) as Hga.
  pose proof (getCollider_entry_of w b Hok) as Hgb.
  unfold entries_intersect.
  destruct (entry_of w a) as [ea|] eqn:Ea.
  2:{ rejected ltac:(left; apply Hha; reflexivity). }
  destruct (entry_of w b) as [eb|] eqn:Eb.
  2:{ rejected ltac:(right; left; apply Hhb; reflexivity). }
  destruct (AABB_intersects (getBounds ea) (getBounds eb)) eqn:Hint; simpl.
  2:{ rejected ltac:(right; right; exists ea, eb; auto). }
  destruct (canCollideWith _ _) eqn:Hmask; simpl.
  2:{ rejected ltac:(right; right; exists ea, eb; auto). }
  eexists true, _. split; [reflexivity|]. split; [reflexivity|]. split; [|split].
  - split; [discriminate|].
    intros [H|[H|(ea' & eb' & Ha' & Hb' & [H|H])]].
    + apply Hha in H. discriminate.
    + apply Hhb in H. discriminate.
    + rewrite Hga in Ha'. rewrite Hgb in Hb'. congruence.
    + rewrite Hga in Ha'. rewrite Hgb in Hb'. congruence.
  - intros _. exists ea, eb. repeat split; auto.
  - discriminate.
Qed.

(** C1. Two registered entries whose world boxes intersect and whose masks
    are incompatible from the first to the second: the all-pairs scan
    reports the pair (first identifier: the entry that comes first in the
    sequence) and is the same under any other masks and layer matrix; the
    scan for the first entity does not report the pair. *)
Theorem detect_unfiltered_vs_filtered (w : CollisionWorld) (i j : nat)
    (ea eb : ColliderEntry) :
  index_map_ok w ->
  colliders_ w !! i = Some ea -> colliders_ w !! j = Some eb -> i <> j ->
  AABB_intersects (getBounds ea) (getBounds eb) = true ->
  canCollideWith (getCollisionMask (collider ea)) (getCollisionMask (collider eb)) = false ->
  (if decide (i < j)%nat then pair_info ea eb else pair_info eb ea) ∈ detectCollisions w /\
  (forall (f : ColliderEntry -> CollisionMask) (m : list Z),
     detectCollisions (remask f m w) = detectCollisions w) /\
  exists res, detectCollisionsForEntity (entityId ea) w = Some res /\
    forall info, info ∈ res -> entityA info = entityId ea /\ entityB info <> entityId eb.
Proof.
  intros Hok Ha Hb Hij Hint Hmask. split; [|split].
  - rewrite detectCollisions_eq. apply detect_pairs_elem.
    destruct (decide (i < j)%nat) as [Hlt|Hge].
    + exists i, j, ea, eb. repeat split; auto.
    + exists j, i, eb, ea. repeat split; auto; [lia|].
      unfold entries_intersect. rewrite AABB_intersects_sym. exact Hint.
  - intros f m. apply detectCollisions_remask.
  - rewrite (detectCollisionsForEntity_eq w _ Hok), (entry_of_index w i ea Hok Ha).
    eexists. split; [reflexivity|]. intros info Hin.
    apply list_elem_of_In, in_map_iff in Hin as (other & <- & Hother).
    apply filter_In in Hother as [Hother Hrep]. split; [reflexivity|].
    simpl. intros Heq.
    apply list_elem_of_In, list_elem_of_lookup in Hother as [k Hk].
    assert (k = j) as -> by (eapply index_map_inj; eauto).
    assert (other = eb) as -> by congruence.
    unfold reported_for in Hrep. rewrite Hmask, andb_false_r in Hrep. discriminate.
Qed.

(** [checkCollision_spec] on the sample world: entity 2 accepts every layer,
    so the check of (2, 1) returns and leaves a rejected [outInfo] alone. *)
Lemma checkCollision_spec_witness :
  exists (r : bool) (out' : CollisionInfo),
    checkCollision 2 1 blank_info world_masked = Some (r, out') /\
    checkCollision2 2 1 blank_info world_masked = Some r /\
    (r = false -> out' = blank_info).
Proof.
  destruct (checkCollision_spec world_masked 2 1 blank_info (proj1 world_inv_world_masked))
    as (r & out' & H1 & H2 & _ & _ & H5).
  exists r, out'. split; [exact H1|]. split; [exact H2|exact H5].
Defined.

(** [detect_unfiltered_vs_filtered] on the sample world: entity 1 (index 0)
    only accepts [Enemy], entity 2 (index 1) is [Terrain]. *)
Lemma detect_unfiltered_vs_filtered_witness :
  (if decide (0 < 1)%nat
   then pair_info (square 1 0 0 10 Layer.Player Layer.Enemy)
                  (square 2 5 5 10 Layer.Terrain Layer.All)
   else pair_info (square 2 5 5 10 Layer.Terrain Layer.All)
                  (square 1 0 0 10 Layer.Player Layer.Enemy))
    ∈ detectCollisions world_masked /\
  exists res, detectCollisionsForEntity 1 world_masked = Some res /\
    forall info, info ∈ res -> entityA info = 1%N /\ entityB info <> 2%N.
Proof.
  assert (H0 : colliders_ world_masked !! 0%nat =
               Some (square 1 0 0 10 Layer.Player Layer.Enemy))
    by (vm_compute; reflexivity).
  assert (H1 : colliders_ world_masked !! 1%nat =
               Some (square 2 5 5 10 Layer.Terrain Layer.All))
    by (vm_compute; reflexivity).
  destruct (detect_unfiltered_vs_filtered world_masked 0 1 _ _
              (proj1 world_inv_world_masked) H0 H1 ltac:(lia)
              ltac:(vm_compute; reflexivity) ltac:(vm_compute; reflexivity))
    as (Hall & _ & Hone).
  split; [exact Hall|exact Hone].
Defined.

(** * Overlap depths of positive results *)

Lemma mkCollisionInfo_overlap (idA idB : EntityID) (bA bB : AABB) (t : bool) :
  AABB_intersects bA bB = true -> bounds_valid bA -> bounds_valid bB ->
  overlap_ok (mkCollisionInfo idA idB bA bB t).
Proof.
  intros Hint (HlA & HrA & HtA & HbA) (HlB & HrB & HtB & HbB).
  apply AABB_intersects_iff in Hint as (H1 & H2 & H3 & H4).
  pose proof (F32Facts.sub_nonneg _ _ HrA HlB H2) as Hx1.
  pose proof (F32Facts.sub_nonneg _ _ HrB HlA H1) as Hx2.
  pose proof (F32Facts.sub_nonneg _ _ HbA HtB H4) as Hy1.
  pose proof (F32Facts.sub_nonneg _ _ HbB HtA H3) as Hy2.
  split; [split; reflexivity|]. split; [|split].
  - unfold overlap_minimal. simpl.
    destruct (F32Facts.min_le _ _ Hx1 Hx2). destruct (F32Facts.min_le _ _ Hy1 Hy2). auto.
  - apply F32Facts.min_nonneg; assumption.
  - apply F32Facts.min_nonneg; assumption.
Qed.

Lemma pair_info_positive (w : CollisionWorld) (a b : ColliderEntry) :
  a ∈ colliders_ w -> b ∈ colliders_ w -> entries_intersect a b = true ->
  positive_result w (pair_info a b).
Proof. intros Ha Hb Hint. exists a, b. repeat split; auto. Qed.

Lemma entry_of_elem (w : CollisionWorld) (id : EntityID) (e : ColliderEntry) :
  entry_of w id = Some e -> e ∈ colliders_ w.
Proof.
  unfold entry_of. destruct (entityIndexMap_ w !! id) as [i|]; [|discriminate].
  simpl. intros H. apply list_elem_of_lookup. eauto.
Qed.

(** Every result of the three detection paths is a positive pair result. *)
Lemma detection_results_positive (w : CollisionWorld) :
  index_map_ok w ->
  (forall info, info ∈ detectCollisions w -> positive_result w info) /\
  (forall id, exists res, detectCollisionsForEntity id w = Some res /\
     forall info, info ∈ res -> positive_result w info) /\
  (forall a b outInfo, exists r out', checkCollision a b outInfo w = Some (r, out') /\
     (r = true -> positive_result w out')).
Proof.
  intros Hok. split; [|split].
  - intros info Hin. rewrite detectCollisions_eq in Hin.
    apply detect_pairs_elem in Hin as (i & j & a & b & _ & Ha & Hb & Hint & ->).
    apply pair_info_positive; [| |assumption]; apply list_elem_of_lookup; eauto.
  - intros id. rewrite (detectCollisionsForEntity_eq w id Hok).
    eexists. split; [reflexivity|]. intros info Hin.
    destruct (entry_of w id) as [target|] eqn:Et; [|inversion Hin].
    apply list_elem_of_In, in_map_iff in Hin as (other & <- & Hother).
    apply filter_In in Hother as [Hother Hrep].
    unfold reported_for in Hrep. apply andb_true_iff in Hrep as [Hrep _].
    apply andb_true_iff in Hrep as [_ Hint].
    apply pair_info_positive; [|apply list_elem_of_In|]; eauto using entry_of_elem.
  - intros a b outInfo. rewrite (checkCollision_eq w a b outInfo Hok).
    destruct (entry_of w a) as [ea|] eqn:Ea; [|exists false, outInfo; split; [reflexivity|discriminate]].
    destruct (entry_of w b) as [eb|] eqn:Eb; [|exists false, outInfo; split; [reflexivity|discriminate]].
    destruct (entries_intersect ea eb) eqn:Hint; simpl;
      [|exists false, outInfo; split; [reflexivity|discriminate]].
    destruct (canCollideWith _ _); [|exists false, outInfo; split; [reflexivity|discriminate]].
    eexists true, _. split; [reflexivity|]. intros _.
    exists ea, eb. pose proof (entry_of_Some w a ea Hok Ea) as [Hida _].
    pose proof (entry_of_Some w b eb Hok Eb) as [Hidb _].
    repeat split; eauto using entry_of_elem.
Qed.

(** C6. In every result of [detectCollisions], [detectCollisionsForEntity]
    and [checkCollision] the boxes are the world boxes of the two entries,
    [overlapX = min(A.right - B.left, B.right - A.left)] and
    [overlapY = min(A.bottom - B.top, B.bottom - A.top)], and, the edges of
    the world boxes being binary32 numbers, each is below both differences
    of its axis and non-negative. *)
Theorem overlap_depths (w : CollisionWorld) :
  index_map_ok w ->
  Forall (fun e => bounds_valid (getBounds e)) (colliders_ w) ->
  (forall info, info ∈ detectCollisions w ->
     positive_result w info /\ overlap_ok info) /\
  (forall id, exists res, detectCollisionsForEntity id w = Some res /\
     forall info, info ∈ res -> positive_result w info /\ overlap_ok info) /\
  (forall a b outInfo, exists r out', checkCollision a b outInfo w = Some (r, out') /\
     (r = true -> positive_result w out' /\ overlap_ok out')).
Proof.
  intros Hok Hvalid.
  assert (Hpos : forall info, positive_result w info ->
            info = mkCollisionInfo (entityA info) (entityB info) (boundsA info)
                     (boundsB info) (info_isTrigger info) -> overlap_ok info).
  { intros info (a & b & Ha & Hb & _ & _ & HbA & HbB & Hint) ->. simpl in *.
    rewrite Forall_forall in Hvalid.
    apply mkCollisionInfo_overlap; [assumption| |].
    - rewrite HbA. apply Hvalid, Ha.
    - rewrite HbB. apply Hvalid, Hb. }
  split; [|split].
  - intros info Hin. split; [apply (detection_results_positive w Hok), Hin|].
    apply Hpos; [apply (detection_results_positive w Hok), Hin|].
    rewrite detectCollisions_eq in Hin.
    apply detect_pairs_elem in Hin as (i & j & a & b & _ & _ & _ & _ & ->). reflexivity.
  - intros id.
    destruct (proj1 (proj2 (detection_results_positive w Hok)) id) as (res & Hres & Hall).
    exists res. split; [exact Hres|]. intros info Hin. split; [apply Hall, Hin|].
    apply Hpos; [apply Hall, Hin|].
    rewrite (detectCollisionsForEntity_eq w id Hok) in Hres. injection Hres as <-.
    destruct (entry_of w id); [|inversion Hin].
    apply list_elem_of_In, in_map_iff in Hin as (other & <- & _). reflexivity.
  - intros a b outInfo.
    destruct (proj2 (proj2 (detection_results_positive w Hok)) a b outInfo)
      as (r & out' & Hres & Hall).
    exists r, out'. split; [exact Hres|]. intros Hr. split; [apply Hall, Hr|].
    apply Hpos; [apply Hall, Hr|]. subst r.
    rewrite (checkCollision_eq w a b outInfo Hok) in Hres.
    destruct (entry_of w a); [|discriminate]. destruct (entry_of w b); [|discriminate].
    destruct (_ && _); [|discriminate]. injection Hres as <-. reflexivity.
Qed.

Lemma world_masked_bounds_valid :
  Forall (fun e => bounds_valid (getBounds e)) (colliders_ world_masked).
Proof.
  replace (colliders_ world_masked) with masked_entries by (vm_compute; reflexivity).
  repeat constructor.
Qed.

(** [overlap_depths] on the sample world. *)
Lemma overlap_depths_witness :
  Forall (fun info => positive_result world_masked info /\ overlap_ok info)
    (detectCollisions world_masked).
Proof.
  apply Forall_forall.
  exact (proj1 (overlap_depths world_masked (proj1 world_inv_world_masked)
                  world_masked_bounds_valid)).
Defined.

(** * Callback dispatch *)

Lemma processCollisions_logging (w : CollisionWorld) (log : list Call) :
  processCollisions logging w log = log ++ map call_of (detectCollisions w).
Proof.
  unfold processCollisions. generalize (detectCollisions w). intros l. revert log.
  induction l as [|info l IH]; intros log; simpl.
  - rewrite app_nil_r. reflexivity.
  - rewrite IH. unfold dispatch, call_of. simpl.
    destruct (info_isTrigger info); rewrite <- app_assoc; reflexivity.
Qed.

Lemma world_masked_registered :
  register_all masked_entries newWorld = Some world_masked.
Proof. vm_compute. reflexivity. Qed.

(** C3. [processCollisions] walks the result of [detectCollisions] in scan
    order and calls, for each pair, the trigger-enter handler with the two
    identifiers when the pair is a trigger and the collision handler with
    the whole record otherwise; changing the masks of the entries or the
    layer matrix changes nothing of what is dispatched; and some world has a
    pair for which [checkCollision] answers false and the collision handler
    is called. *)
Theorem processCollisions_dispatch :
  (forall (S : Type) (cb : Callbacks S) (w : CollisionWorld) (s : S),
     processCollisions cb w s = fold_left (dispatch cb) (detect_pairs (colliders_ w)) s) /\
  (forall (w : CollisionWorld) (log : list Call),
     processCollisions logging w log = log ++ map call_of (detectCollisions w)) /\
  (forall (S : Type) (cb : Callbacks S) (f : ColliderEntry -> CollisionMask) (m : list Z)
          (w : CollisionWorld) (s : S),
     processCollisions cb (remask f m w) s = processCollisions cb w s) /\
  (exists (w : CollisionWorld) (a b : EntityID) (info : CollisionInfo),
     register_all masked_entries newWorld = Some w /\
     (forall outInfo, checkCollision a b outInfo w = Some (false, outInfo)) /\
     entityA info = a /\ entityB info = b /\
     processCollisions logging w [] = [CollisionCall info]).
Proof.
  split; [|split; [|split]].
  - intros S cb w s. unfold processCollisions. rewrite detectCollisions_eq. reflexivity.
  - exact processCollisions_logging.
  - intros S cb f m w s. unfold processCollisions.
    rewrite detectCollisions_remask. reflexivity.
  - exists world_masked, 1%N, 2%N,
      (pair_info (square 1 0 0 10 Layer.Player Layer.Enemy)
                 (square 2 5 5 10 Layer.Terrain Layer.All)).
    split; [exact world_masked_registered|].
    split; [intros outInfo; vm_compute; reflexivity|].
    split; [reflexivity|]. split; [reflexivity|]. vm_compute. reflexivity.
Qed.

(** * Registration, removal and the index map *)

Lemma removeCollider_spec (w : CollisionWorld) (id : EntityID) :
  world_inv w ->
  exists w', removeCollider id w = Some w' /\ world_inv w' /\
    hasCollider id w' = false /\
    (forall id', id' <> id -> entry_of w' id' = entry_of w id') /\
    getColliderCount w' =
      (if hasCollider id w then getColliderCount w - 1 else getColliderCount w)%nat /\
    layerMatrix_ w' = layerMatrix_ w.
Proof.
  intros Hinv. destruct (entityIndexMap_ w !! id) as [index|] eqn:Hm.
  - destruct (removeCollider_registered w id index Hinv Hm)
      as (w' & Hrm & Hinv' & Hlen & Hnone & Hmat & Hother).
    exists w'. split; [exact Hrm|]. split; [exact Hinv'|].
    split; [apply hasCollider_false, Hnone|]. split; [exact Hother|].
    split; [|exact Hmat].
    replace (hasCollider id w) with true by (symmetry; apply hasCollider_true; eauto).
    unfold getColliderCount. lia.
  - exists w. split; [apply removeCollider_unregistered, Hm|]. split; [exact Hinv|].
    split; [apply hasCollider_false, Hm|]. split; [reflexivity|]. split; [|reflexivity].
    replace (hasCollider id w) with false by (symmetry; apply hasCollider_false, Hm).
    reflexivity.
Qed.

Lemma getCollider_other (w w' : CollisionWorld) (id : EntityID) :
  index_map_ok w -> index_map_ok w' ->
  entry_of w' id = entry_of w id -> getCollider id w' = getCollider id w.
Proof.
  intros Hok Hok' H. rewrite (getCollider_entry_of w id Hok), (getCollider_entry_of w' id Hok').
  rewrite H. reflexivity.
Qed.

(** C2, as stated, fails where the identifier is already registered: adding
    entity 1 again to the world that holds entity 1 alone and removing it
    leaves no entry, one fewer than before the add. *)
Lemma add_remove_count_counterexample :
  world_inv world_one /\
  getColliderCount world_one = 1%nat /\
  hasCollider 1 world_one = true /\
  getColliderCount <$>
    (addCollider 1 (F32.of_Z 0) (F32.of_Z 0) F32.one F32.one
       (mkCollider (F32.of_Z 10) (F32.of_Z 10) Layer.Default Layer.All) world_one
     ≫= removeCollider 1) = Some 0%nat /\
  0%nat <> getColliderCount world_one.
Proof.
  split; [exact world_inv_world_one|]. repeat split; try (vm_compute; reflexivity).
  vm_compute. discriminate.
Qed.

(** C2, amended. On a world that satisfies the invariant (the index map
    sends an identifier to [i] exactly when entry [i] carries it; fewer than
    [2^64] entries), the identifiers of the entries are pairwise distinct;
    [addCollider], [removeCollider], [updatePosition], [updateScale] and
    [clear] return and keep the invariant; after [addCollider(id, ...)] then
    [removeCollider(id)], [hasCollider(id)] is false and the count is the
    count before the add when [id] was not registered before it, one less
    when it was; and [removeCollider(id)] leaves every other identifier
    resolving, through [getCollider], to the entry it resolved to before. *)
Theorem index_map_maintained (w : CollisionWorld) (id : EntityID) (x y sx sy : float)
    (col : ColliderComponent) :
  world_inv w -> Z.of_nat (length (colliders_ w)) + 1 < 2 ^ 64 ->
  NoDup (entityId <$> colliders_ w) /\
  (exists w', addCollider id x y sx sy col w = Some w' /\ world_inv w' /\
     getCollider id w' =
       Some (Some {| entityId := id; posX := x; posY := y; scaleX := sx; scaleY := sy;
                     collider := col |}) /\
     forall id', id' <> id -> getCollider id' w' = getCollider id' w) /\
  (exists w', removeCollider id w = Some w' /\ world_inv w' /\
     hasCollider id w' = false /\
     getColliderCount w' =
       (if hasCollider id w then getColliderCount w - 1 else getColliderCount w)%nat /\
     forall id', id' <> id -> getCollider id' w' = getCollider id' w) /\
  (exists w', updatePosition id x y w = Some w' /\ world_inv w' /\
     getColliderCount w' = getColliderCount w /\
     forall id', id' <> id -> getCollider id' w' = getCollider id' w) /\
  (exists w', updateScale id sx sy w = Some w' /\ world_inv w' /\
     getColliderCount w' = getColliderCount w /\
     forall id', id' <> id -> getCollider id' w' = getCollider id' w) /\
  world_inv (clear w) /\
  (exists w1 w2, addCollider id x y sx sy col w = Some w1 /\
     removeCollider id w1 = Some w2 /\ world_inv w2 /\
     hasCollider id w2 = false /\
     getColliderCount w2 =
       (if hasCollider id w then getColliderCount w - 1 else getColliderCount w)%nat /\
     forall id', id' <> id -> getCollider id' w2 = getCollider id' w).
Proof.
  intros Hinv Hcap. pose proof Hinv as [Hok Hsz].
  destruct (addCollider_spec w id x y sx sy col Hinv Hcap)
    as (wa & Hadd & Hinva & Hself & Hothera & Hlena & _ & _).
  destruct (removeCollider_spec w id Hinv) as (wr & Hrm & Hinvr & Hgone & Hotherr & Hlenr & _).
  destruct (updatePosition_spec w id x y Hinv) as (wp & Hup & Hinvp & Hlenp & Hotherp & _).
  destruct (updateScale_spec w id sx sy Hinv) as (ws & Hus & Hinvs & Hlens & Hothers & _).
  destruct (removeCollider_spec wa id Hinva)
    as (w2 & Hrm2 & Hinv2 & Hgone2 & Hother2 & Hlen2 & _).
  split; [apply index_map_NoDup, Hok|].
  split; [|split; [|split; [|split; [|split]]]].
  - exists wa. split; [exact Hadd|]. split; [exact Hinva|]. split.
    + rewrite (getCollider_entry_of wa id (proj1 Hinva)), Hself. reflexivity.
    + intros id' Hd. apply getCollider_other; [exact Hok|apply Hinva|auto].
  - exists wr. split; [exact Hrm|]. split; [exact Hinvr|]. split; [exact Hgone|].
    split; [exact Hlenr|].
    intros id' Hd. apply getCollider_other; [exact Hok|apply Hinvr|auto].
  - exists wp. split; [exact Hup|]. split; [exact Hinvp|]. split; [exact Hlenp|].
    intros id' Hd. apply getCollider_other; [exact Hok|apply Hinvp|auto].
  - exists ws. split; [exact Hus|]. split; [exact Hinvs|]. split; [exact Hlens|].
    intros id' Hd. apply getCollider_other; [exact Hok|apply Hinvs|auto].
  - apply world_inv_clear.
  - exists wa, w2. split; [exact Hadd|]. split; [exact Hrm2|]. split; [exact Hinv2|].
    split; [exact Hgone2|]. split.
    + rewrite Hlen2. unfold getColliderCount. rewrite Hlena.
      replace (hasCollider id wa) with true.
      * destruct (hasCollider id w) eqn:Hh; [|lia].
        apply hasCollider_true in Hh as [i Hi].
        destruct (index_map_lookup w id i Hok Hi) as (e & He & _).
        apply lookup_lt_Some in He. lia.
      * symmetry. apply hasCollider_true.
        destruct (entry_of_Some wa id _ (proj1 Hinva) Hself) as (_ & i & Hi & _). eauto.
    + intros id' Hd. apply getCollider_other; [exact Hok|apply Hinv2|].
      rewrite Hother2 by assumption. apply Hothera. assumption.
Qed.

(** [index_map_maintained] on entities 1, 2, 3: after [removeCollider(1)]
    the identifiers 2 and 3 still resolve to their entries. *)
Lemma index_map_maintained_witness :
  exists w', removeCollider 1 world_three = Some w' /\
    hasCollider 1 w' = false /\
    getCollider 2 w' = getCollider 2 world_three /\
    getCollider 3 w' = getCollider 3 world_three.
Proof.
  destruct (index_map_maintained world_three 1 F32.zero F32.zero F32.one F32.one
              (mkCollider F32.one F32.one Layer.Default Layer.All)
              world_inv_world_three ltac:(vm_compute; reflexivity))
    as (_ & _ & (w' & Hrm & _ & Hgone & _ & Hother) & _).
  exists w'. split; [exact Hrm|]. split; [exact Hgone|].
  split; apply Hother; discriminate.
Defined.

(** * The layer matrix *)

Lemma bit_set_testbit (l : Z) (i : nat) : bit_set l i = Z.testbit l (Z.of_nat i).
Proof.
  unfold bit_set. rewrite Z.shiftl_1_l.
  destruct (Z.testbit l (Z.of_nat i)) eqn:Hb.
  - apply negb_true_iff, Z.eqb_neq. intros H.
    assert (Z.testbit (Z.land l (2 ^ Z.of_nat i)) (Z.of_nat i) = true) as Ht.
    { rewrite Z.land_spec, Hb, Z.pow2_bits_true by lia. reflexivity. }
    rewrite H, Z.bits_0 in Ht. discriminate.
  - apply negb_false_iff, Z.eqb_eq. apply Z.bits_inj'. intros n Hn.
    rewrite Z.land_spec, Z.bits_0.
    destruct (Z.eq_dec n (Z.of_nat i)) as [->|Hne].
    + rewrite Hb. reflexivity.
    + rewrite Z.pow2_bits_false by lia. apply andb_false_r.
Qed.

(** Clearing the bits of [l] leaves no bit of [l]. *)
Lemma land_not32_disjoint (r l : Z) : Z.land (Z.land r (not32 l)) l = 0.
Proof.
  apply Z.bits_inj'. intros n Hn. unfold not32.
  rewrite !Z.land_spec, Z.lnot_spec, Z.bits_0 by assumption.
  destruct (Z.testbit l n); simpl; rewrite ?andb_false_r; reflexivity.
Qed.

Lemma land_not32_keeps_disjoint (r l l' : Z) :
  Z.land r l = 0 -> Z.land (Z.land r (not32 l')) l = 0.
Proof.
  intros H. apply Z.bits_inj'. intros n Hn.
  pose proof (f_equal (fun z => Z.testbit z n) H) as Hb. simpl in Hb.
  rewrite Z.land_spec, Z.bits_0 in Hb.
  rewrite !Z.land_spec, Z.bits_0.
  destruct (Z.testbit r n), (Z.testbit l n); simpl in *; try discriminate;
    rewrite ?andb_false_r; reflexivity.
Qed.

(** Disabling: a row touched for [l1] has no bit of [l2], a row touched for
    [l2] has no bit of [l1]. *)
Lemma row_after_disabled (l1 l2 : Z) (i : nat) (r : Z) :
  (bit_set l1 i = true -> Z.land (row_after l1 l2 false i r) l2 = 0) /\
  (bit_set l2 i = true -> Z.land (row_after l1 l2 false i r) l1 = 0).
Proof.
  unfold row_after, row_update. split; intros ->.
  - destruct (bit_set l2 i).
    + apply land_not32_keeps_disjoint, land_not32_disjoint.
    + apply land_not32_disjoint.
  - apply land_not32_disjoint.
Qed.

Section Rows.

Variables (l1 l2 : Z) (enabled : bool).

(** One iteration of the loop of [setLayerCollisionEnabled]. *)
Let step (m : list Z) (i : nat) : list Z :=
  let m := if bit_set l1 i then setLayerRow m i l2 enabled else m in
  let m := if bit_set l2 i then setLayerRow m i l1 enabled else m in
  m.

Lemma step_length (m : list Z) (i : nat) : length (step m i) = length m.
Proof.
  unfold step, setLayerRow.
  destruct (bit_set l1 i), (bit_set l2 i), enabled; rewrite ?length_insert; reflexivity.
Qed.

Lemma step_lookup (m : list Z) (i k : nat) :
  (i < length m)%nat ->
  step m i !!! k = if decide (k = i) then row_after l1 l2 enabled i (m !!! i) else m !!! k.
Proof.
  intros Hi. unfold step, setLayerRow, row_after, row_update.
  destruct (decide (k = i)) as [->|Hne].
  - destruct (bit_set l1 i), (bit_set l2 i), enabled;
      rewrite ?list_lookup_total_insert_eq by (rewrite ?length_insert; assumption);
      reflexivity.
  - destruct (bit_set l1 i), (bit_set l2 i), enabled;
      rewrite ?list_lookup_total_insert_ne by congruence; reflexivity.
Qed.

Lemma steps_length (idxs : list nat) (m : list Z) :
  length (fold_left step idxs m) = length m.
Proof.
  revert m. induction idxs as [|i idxs IH]; intros m; simpl; [reflexivity|].
  rewrite IH. apply step_length.
Qed.

Lemma steps_lookup (idxs : list nat) (m : list Z) (k : nat) :
  NoDup idxs -> (forall i, i ∈ idxs -> (i < length m)%nat) ->
  fold_left step idxs m !!! k =
    if decide (k ∈ idxs) then row_after l1 l2 enabled k (m !!! k) else m !!! k.
Proof.
  revert m. induction idxs as [|i idxs IH]; intros m Hnd Hlt.
  - destruct (decide (k ∈ [])) as [Hin|_]; [inversion Hin|reflexivity].
  - apply NoDup_cons in Hnd as [Hni Hnd].
    change (fold_left step (i :: idxs) m) with (fold_left step idxs (step m i)).
    rewrite IH; [|exact Hnd|].
    2:{ intros j Hj. rewrite step_length. apply Hlt. right. exact Hj. }
    rewrite !step_lookup by (apply Hlt; left).
    destruct (decide (k = i)) as [->|Hne].
    + destruct (decide (i ∈ idxs)) as [?|_]; [contradiction|].
      destruct (decide (i ∈ i :: idxs)) as [_|Hn]; [reflexivity|].
      exfalso. apply Hn. left.
    + destruct (decide (k ∈ idxs)) as [Hin|Hnin];
        destruct (decide (k ∈ i :: idxs)) as [Hin'|Hnin']; try reflexivity.
      * exfalso. apply Hnin'. right. exact Hin.
      * exfalso. apply elem_of_cons in Hin' as [?|?]; contradiction.
Qed.

(** Row [k] of the matrix after [setLayerCollisionEnabled]. *)
Lemma setLayerCollisionEnabled_row (m : list Z) (k : nat) :
  length m = 8%nat -> (k < 8)%nat ->
  setLayerCollisionEnabled_matrix l1 l2 enabled m !!! k =
  row_after l1 l2 enabled k (m !!! k).
Proof.
  intros Hlen Hk. unfold setLayerCollisionEnabled_matrix, for_range.
  change (fold_left _ (seq 0 (8 - 0)) m) with (fold_left step (seq 0 8) m).
  rewrite steps_lookup.
  - rewrite decide_True; [reflexivity|]. apply elem_of_seq. lia.
  - apply NoDup_seq.
  - intros i Hi. apply elem_of_seq in Hi. lia.
Qed.

Lemma setLayerCollisionEnabled_length (m : list Z) :
  length (setLayerCollisionEnabled_matrix l1 l2 enabled m) = length m.
Proof.
  unfold setLayerCollisionEnabled_matrix, for_range.
  change (fold_left _ (seq 0 (8 - 0)) m) with (fold_left step (seq 0 8) m).
  apply steps_length.
Qed.

End Rows.

Lemma isLayerCollisionEnabled_loop_false (m : list Z) (l1 l2 : Z) (i n k : nat) :
  (i <= k < i + n)%nat -> bit_set l1 k = true -> Z.land (m !!! k) l2 = 0 ->
  isLayerCollisionEnabled_loop m l1 l2 i n = false.
Proof.
  revert i. induction n as [|n IH]; intros i Hk Hbit Hrow; [lia|]. simpl.
  destruct (bit_set l1 i && (Z.land (m !!! i) l2 =? 0)) eqn:Hc; [reflexivity|].
  destruct (decide (k = i)) as [->|Hne].
  - rewrite Hbit, Hrow in Hc. discriminate.
  - apply IH; [lia|assumption|assumption].
Qed.

Lemma isLayerCollisionEnabled_loop_true (m : list Z) (l1 l2 : Z) (i n : nat) :
  (forall k, (i <= k < i + n)%nat -> bit_set l1 k = false) ->
  isLayerCollisionEnabled_loop m l1 l2 i n = true.
Proof.
  revert i. induction n as [|n IH]; intros i Hbits; [reflexivity|]. simpl.
  rewrite (Hbits i) by lia. simpl. apply IH. intros k Hk. apply Hbits. lia.
Qed.

(** C7, as stated, fails for the layer [None]: after disabling
    [(None, Player)] the query [(None, Player)] still answers true. *)
Lemma disable_none_counterexample :
  isLayerCollisionEnabled Layer.None Layer.Player
    (setLayerCollisionEnabled Layer.None Layer.Player false newWorld) = true.
Proof. vm_compute. reflexivity. Qed.

(** C7, amended. For layers [L1] and [L2] that each have a bit among the
    bits 0 to 7, and every state of the matrix, after
    [setLayerCollisionEnabled(L1, L2, false)] both
    [isLayerCollisionEnabled(L1, L2)] and [isLayerCollisionEnabled(L2, L1)]
    are false. *)
Theorem disable_layers_symmetric (w : CollisionWorld) (L1 L2 : CollisionLayer) :
  length (layerMatrix_ w) = 8%nat ->
  (exists i, 0 <= i < 8 /\ Z.testbit L1 i = true) ->
  (exists j, 0 <= j < 8 /\ Z.testbit L2 j = true) ->
  isLayerCollisionEnabled L1 L2 (setLayerCollisionEnabled L1 L2 false w) = false /\
  isLayerCollisionEnabled L2 L1 (setLayerCollisionEnabled L1 L2 false w) = false.
Proof.
  intros Hlen (i & Hi & Hbi) (j & Hj & Hbj).
  unfold isLayerCollisionEnabled, setLayerCollisionEnabled. simpl. split.
  - apply (isLayerCollisionEnabled_loop_false _ _ _ 0 8 (Z.to_nat i)); [lia| |].
    + rewrite bit_set_testbit, Z2Nat.id by lia. exact Hbi.
    + rewrite setLayerCollisionEnabled_row by (assumption || lia).
      apply row_after_disabled. rewrite bit_set_testbit, Z2Nat.id by lia. exact Hbi.
  - apply (isLayerCollisionEnabled_loop_false _ _ _ 0 8 (Z.to_nat j)); [lia| |].
    + rewrite bit_set_testbit, Z2Nat.id by lia. exact Hbj.
    + rewrite setLayerCollisionEnabled_row by (assumption || lia).
      apply row_after_disabled. rewrite bit_set_testbit, Z2Nat.id by lia. exact Hbj.
Qed.

(** C10. When [L1] has none of the bits 0 to 7 (as [None]),
    [isLayerCollisionEnabled(L1, L2)] is true for every layer [L2] and every
    state of the matrix, whatever calls of [setLayerCollisionEnabled] came
    before. *)
Theorem isLayerCollisionEnabled_vacuous (w : CollisionWorld) (L1 L2 : CollisionLayer)
    (calls : list (CollisionLayer * CollisionLayer * bool)) :
  (forall i, 0 <= i < 8 -> Z.testbit L1 i = false) ->
  isLayerCollisionEnabled L1 L2 w = true /\
  isLayerCollisionEnabled L1 L2 (set_layers calls w) = true.
Proof.
  intros Hbits.
  assert (H : forall w', isLayerCollisionEnabled L1 L2 w' = true).
  { intros w'. apply isLayerCollisionEnabled_loop_true.
    intros k Hk. rewrite bit_set_testbit. apply Hbits. lia. }
  split; apply H.
Qed.

(** [disable_layers_symmetric] on the initial matrix with [Enemy] and
    [Player]. *)
Lemma disable_layers_symmetric_witness :
  isLayerCollisionEnabled Layer.Enemy Layer.Player
    (setLayerCollisionEnabled Layer.Enemy Layer.Player false newWorld) = false /\
  isLayerCollisionEnabled Layer.Player Layer.Enemy
    (setLayerCollisionEnabled Layer.Enemy Layer.Player false newWorld) = false.
Proof.
  apply (disable_layers_symmetric newWorld Layer.Enemy Layer.Player).
  - reflexivity.
  - exists 2. split; [lia|reflexivity].
  - exists 1. split; [lia|reflexivity].
Defined.

(** [isLayerCollisionEnabled_vacuous] for the layer [None], before and after
    the pair [(None, Player)] is disabled. *)
Lemma isLayerCollisionEnabled_vacuous_witness :
  isLayerCollisionEnabled Layer.None Layer.Player newWorld = true /\
  isLayerCollisionEnabled Layer.None Layer.Player
    (set_layers [(Layer.None, Layer.Player, false)] newWorld) = true.
Proof.
  apply (isLayerCollisionEnabled_vacuous newWorld Layer.None Layer.Player
           [(Layer.None, Layer.Player, false)]).
  intros i Hi. apply Z.testbit_0_l.
Defined.

(** * Further properties of the layer matrix *)

Lemma isLayerCollisionEnabled_loop_true_rows (m : list Z) (l1 l2 : Z) (i n : nat) :
  (forall k, (i <= k < i + n)%nat -> bit_set l1 k = true -> Z.land (m !!! k) l2 <> 0) ->
  isLayerCollisionEnabled_loop m l1 l2 i n = true.
Proof.
  revert i. induction n as [|n IH]; intros i Hrows; [reflexivity|]. simpl.
  assert (Hi : bit_set l1 i && (Z.land (m !!! i) l2 =? 0) = false).
  { destruct (bit_set l1 i) eqn:Hb; [|reflexivity]. simpl.
    apply Z.eqb_neq, Hrows; [lia|exact Hb]. }
  rewrite Hi. apply IH. intros k Hk. apply Hrows. lia.
Qed.

(** The loop only reads the rows of the bits of its first argument. *)
Lemma isLayerCollisionEnabled_loop_ext (m m' : list Z) (l1 l2 : Z) (i n : nat) :
  (forall k, (i <= k < i + n)%nat -> bit_set l1 k = true -> m' !!! k = m !!! k) ->
  isLayerCollisionEnabled_loop m' l1 l2 i n = isLayerCollisionEnabled_loop m l1 l2 i n.
Proof.
  revert i. induction n as [|n IH]; intros i Hrows; [reflexivity|]. simpl.
  rewrite IH by (intros k Hk; apply Hrows; lia).
  destruct (bit_set l1 i) eqn:Hb; [|reflexivity].
  rewrite (Hrows i ltac:(lia) Hb). reflexivity.
Qed.

Lemma land_lor_absorb (r l : Z) : Z.land (Z.lor r l) l = l.
Proof.
  apply Z.bits_inj'. intros n Hn. rewrite Z.land_spec, Z.lor_spec.
  destruct (Z.testbit r n), (Z.testbit l n); reflexivity.
Qed.

Lemma land_lor_keeps (r l l' : Z) : Z.land r l = l -> Z.land (Z.lor r l') l = l.
Proof.
  intros H. apply Z.bits_inj'. intros n Hn.
  pose proof (f_equal (fun z => Z.testbit z n) H) as Hb. simpl in Hb.
  rewrite Z.land_spec in Hb. rewrite Z.land_spec, Z.lor_spec.
  destruct (Z.testbit r n), (Z.testbit l n), (Z.testbit l' n); simpl in *; congruence.
Qed.

(** Enabling: a row touched for [l1] holds every bit of [l2], a row touched
    for [l2] every bit of [l1]. *)
Lemma row_after_enabled (l1 l2 : Z) (i : nat) (r : Z) :
  (bit_set l1 i = true -> Z.land (row_after l1 l2 true i r) l2 = l2) /\
  (bit_set l2 i = true -> Z.land (row_after l1 l2 true i r) l1 = l1).
Proof.
  unfold row_after, row_update. split; intros ->.
  - destruct (bit_set l2 i).
    + apply land_lor_keeps, land_lor_absorb.
    + apply land_lor_absorb.
  - apply land_lor_absorb.
Qed.

(** X1. For non-zero layers [L1] and [L2] and every state of the matrix,
    after [setLayerCollisionEnabled(L1, L2, true)] both
    [isLayerCollisionEnabled(L1, L2)] and [isLayerCollisionEnabled(L2, L1)]
    are true. *)
Theorem enable_layers_symmetric (w : CollisionWorld) (L1 L2 : CollisionLayer) :
  length (layerMatrix_ w) = 8%nat -> L1 <> 0 -> L2 <> 0 ->
  isLayerCollisionEnabled L1 L2 (setLayerCollisionEnabled L1 L2 true w) = true /\
  isLayerCollisionEnabled L2 L1 (setLayerCollisionEnabled L1 L2 true w) = true.
Proof.
  intros Hlen H1 H2. unfold isLayerCollisionEnabled, setLayerCollisionEnabled.
  cbn [layerMatrix_].
  split; apply isLayerCollisionEnabled_loop_true_rows; intros k Hk Hb;
    rewrite setLayerCollisionEnabled_row by (assumption || lia).
  - rewrite (proj1 (row_after_enabled L1 L2 k _) Hb). exact H2.
  - rewrite (proj2 (row_after_enabled L1 L2 k _) Hb). exact H1.
Qed.

Lemma enable_layers_symmetric_witness :
  isLayerCollisionEnabled Layer.Enemy Layer.Player
    (setLayerCollisionEnabled Layer.Enemy Layer.Player true
       (setLayerCollisionEnabled Layer.Enemy Layer.Player false newWorld)) = true /\
  isLayerCollisionEnabled Layer.Player Layer.Enemy
    (setLayerCollisionEnabled Layer.Enemy Layer.Player true
       (setLayerCollisionEnabled Layer.Enemy Layer.Player false newWorld)) = true.
Proof.
  apply (enable_layers_symmetric
           (setLayerCollisionEnabled Layer.Enemy Layer.Player false newWorld)
           Layer.Enemy Layer.Player); [reflexivity|discriminate|discriminate].
Defined.

(** X2. [setLayerCollisionEnabled(L1, L2, _)] only writes the rows of the
    bits of [L1] and [L2]: for a layer [A] that shares none of the bits 0 to
    7 with [L1] or [L2], [isLayerCollisionEnabled(A, B)] is what it was, for
    every [B]. *)
Theorem setLayerCollisionEnabled_frame (w : CollisionWorld) (L1 L2 A B : CollisionLayer)
    (enabled : bool) :
  length (layerMatrix_ w) = 8%nat ->
  (forall i, 0 <= i < 8 -> Z.testbit A i = true ->
     Z.testbit L1 i = false /\ Z.testbit L2 i = false) ->
  isLayerCollisionEnabled A B (setLayerCollisionEnabled L1 L2 enabled w) =
  isLayerCollisionEnabled A B w.
Proof.
  intros Hlen Hdisj. unfold isLayerCollisionEnabled, setLayerCollisionEnabled.
  cbn [layerMatrix_].
  apply isLayerCollisionEnabled_loop_ext. intros k Hk Hb.
  rewrite setLayerCollisionEnabled_row by (assumption || lia).
  rewrite bit_set_testbit in Hb. destruct (Hdisj (Z.of_nat k) ltac:(lia) Hb) as [Hk1 Hk2].
  unfold row_after. rewrite !bit_set_testbit, Hk1, Hk2. reflexivity.
Qed.

Lemma setLayerCollisionEnabled_frame_witness :
  isLayerCollisionEnabled Layer.Terrain Layer.Player
    (setLayerCollisionEnabled Layer.Enemy Layer.Player false newWorld) =
  isLayerCollisionEnabled Layer.Terrain Layer.Player newWorld.
Proof.
  apply (setLayerCollisionEnabled_frame newWorld Layer.Enemy Layer.Player
           Layer.Terrain Layer.Player false); [reflexivity|].
  intros i Hi Hb.
  assert (i = 0 \/ i = 1 \/ i = 2 \/ i = 3 \/ i = 4 \/ i = 5 \/ i = 6 \/ i = 7) as Hc by lia.
  destruct Hc as [->|[->|[->|[->|[->|[->|[->| ->]]]]]]]; try discriminate Hb.
  split; reflexivity.
Defined.

Lemma newWorld_row (k : nat) : (k < 8)%nat -> layerMatrix_ newWorld !!! k = 0xFFFFFFFF.
Proof.
  intros Hk. do 8 (destruct k as [|k]; [reflexivity|]). lia.
Qed.

(** X3. In a new world [isLayerCollisionEnabled(L1, L2)] is true exactly
    when [L1] has none of the bits 0 to 7 or [L2] has one of the bits 0 to
    31: every layer collides with every non-empty layer, none with [None]. *)
Theorem newWorld_layers_enabled (L1 L2 : CollisionLayer) :
  isLayerCollisionEnabled L1 L2 newWorld = true <->
  (forall i, 0 <= i < 8 -> Z.testbit L1 i = false) \/ Z.land 0xFFFFFFFF L2 <> 0.
Proof.
  unfold isLayerCollisionEnabled. split.
  - intros H. destruct (Z.eq_dec (Z.land 0xFFFFFFFF L2) 0) as [Hz|Hnz]; [|right; exact Hnz].
    left. intros i Hi. destruct (Z.testbit L1 i) eqn:Hb; [|reflexivity].
    rewrite (isLayerCollisionEnabled_loop_false _ L1 L2 0 8 (Z.to_nat i)) in H.
    + discriminate.
    + lia.
    + rewrite bit_set_testbit, Z2Nat.id by lia. exact Hb.
    + rewrite newWorld_row by lia. exact Hz.
  - intros [Hno|Hnz].
    + apply isLayerCollisionEnabled_loop_true. intros k Hk.
      rewrite bit_set_testbit. apply Hno. lia.
    + apply isLayerCollisionEnabled_loop_true_rows. intros k Hk _.
      rewrite newWorld_row by lia. exact Hnz.
Qed.

Lemma not32_testbit (l j : Z) :
  0 <= j < 32 -> Z.testbit (not32 l) j = negb (Z.testbit l j).
Proof.
  intros Hj. unfold not32. rewrite Z.land_spec, Z.lnot_spec by lia.
  change 0xFFFFFFFF with (Z.ones 32). rewrite Z.ones_spec_low by lia.
  apply andb_true_r.
Qed.

Lemma row_update_testbit (r l : Z) (enabled : bool) (j : Z) :
  0 <= j < 32 ->
  Z.testbit (row_update r l enabled) j =
  if enabled then Z.testbit r j || Z.testbit l j else Z.testbit r j && negb (Z.testbit l j).
Proof.
  intros Hj. unfold row_update. destruct enabled.
  - apply Z.lor_spec.
  - rewrite Z.land_spec, not32_testbit by assumption. reflexivity.
Qed.

Lemma setLayerCollisionEnabled_symmetric (l1 l2 : Z) (enabled : bool) (m : list Z) :
  length m = 8%nat -> matrix_symmetric m ->
  matrix_symmetric (setLayerCollisionEnabled_matrix l1 l2 enabled m).
Proof.
  intros Hlen Hsym i j Hi Hj.
  rewrite !setLayerCollisionEnabled_row by assumption.
  specialize (Hsym i j Hi Hj). unfold row_after. rewrite !bit_set_testbit.
  destruct (Z.testbit l1 (Z.of_nat i)) eqn:E1i, (Z.testbit l2 (Z.of_nat i)) eqn:E2i,
    (Z.testbit l1 (Z.of_nat j)) eqn:E1j, (Z.testbit l2 (Z.of_nat j)) eqn:E2j;
    rewrite ?row_update_testbit by lia;
    rewrite ?E1i, ?E2i, ?E1j, ?E2j, Hsym;
    destruct enabled, (Z.testbit (m !!! j) (Z.of_nat i)); reflexivity.
Qed.

Lemma set_layers_matrix (calls : list (CollisionLayer * CollisionLayer * bool))
    (w : CollisionWorld) :
  length (layerMatrix_ w) = 8%nat -> matrix_symmetric (layerMatrix_ w) ->
  length (layerMatrix_ (set_layers calls w)) = 8%nat /\
  matrix_symmetric (layerMatrix_ (set_layers calls w)).
Proof.
  revert w. induction calls as [|[[l1 l2] en] calls IH]; intros w Hlen Hsym; [auto|].
  apply IH; simpl.
  - rewrite setLayerCollisionEnabled_length. exact Hlen.
  - apply setLayerCollisionEnabled_symmetric; assumption.
Qed.

Lemma newWorld_symmetric : matrix_symmetric (layerMatrix_ newWorld).
Proof.
  intros i j Hi Hj. rewrite !newWorld_row by assumption.
  change 0xFFFFFFFF with (Z.ones 32). rewrite !Z.ones_spec_low by lia. reflexivity.
Qed.

Lemma bit_set_single_layer (i k : nat) : bit_set (single_layer i) k = bool_decide (k = i).
Proof.
  rewrite bit_set_testbit. unfold single_layer. rewrite Z.shiftl_1_l.
  rewrite Z.pow2_bits_eqb by lia.
  destruct (decide (k = i)) as [->|Hne].
  - rewrite Z.eqb_refl, bool_decide_eq_true_2; reflexivity.
  - rewrite bool_decide_eq_false_2 by assumption. apply Z.eqb_neq. lia.
Qed.

(** A query for a single layer bit reads one row. *)
Lemma isLayerCollisionEnabled_single (w : CollisionWorld) (i : nat) (L2 : CollisionLayer) :
  (i < 8)%nat ->
  isLayerCollisionEnabled (single_layer i) L2 w =
  negb (Z.land (layerMatrix_ w !!! i) L2 =? 0).
Proof.
  intros Hi. unfold isLayerCollisionEnabled.
  destruct (Z.land (layerMatrix_ w !!! i) L2 =? 0) eqn:Hz; cbn [negb].
  - apply (isLayerCollisionEnabled_loop_false _ _ _ 0 8 i); [lia| |].
    + rewrite bit_set_single_layer. apply bool_decide_eq_true_2. reflexivity.
    + apply Z.eqb_eq, Hz.
  - apply (isLayerCollisionEnabled_loop_true_rows _ _ _ 0 8). intros k Hk Hb.
    rewrite bit_set_single_layer in Hb. apply bool_decide_eq_true in Hb. subst k.
    apply Z.eqb_neq, Hz.
Qed.

(** X4. Starting from a new world, every sequence of
    [setLayerCollisionEnabled] calls leaves the 8x8 matrix symmetric, so
    for two single-bit layers (bits 0 to 7) [isLayerCollisionEnabled]
    gives the same answer in both directions. *)
Theorem layer_matrix_symmetric (calls : list (CollisionLayer * CollisionLayer * bool))
    (i j : nat) :
  (i < 8)%nat -> (j < 8)%nat ->
  matrix_symmetric (layerMatrix_ (set_layers calls newWorld)) /\
  isLayerCollisionEnabled (single_layer i) (single_layer j) (set_layers calls newWorld) =
  isLayerCollisionEnabled (single_layer j) (single_layer i) (set_layers calls newWorld).
Proof.
  intros Hi Hj.
  destruct (set_layers_matrix calls newWorld eq_refl newWorld_symmetric) as [Hlen Hsym].
  split; [exact Hsym|].
  rewrite !isLayerCollisionEnabled_single by assumption.
  assert (Hb : forall r k, negb (Z.land r (single_layer k) =? 0) = Z.testbit r (Z.of_nat k)).
  { intros r k. apply bit_set_testbit. }
  rewrite !Hb. apply Hsym; assumption.
Qed.

Lemma layer_matrix_symmetric_witness :
  matrix_symmetric
    (layerMatrix_ (set_layers [(Layer.Enemy, Layer.Player, false)] newWorld)) /\
  isLayerCollisionEnabled (single_layer 1) (single_layer 2)
    (set_layers [(Layer.Enemy, Layer.Player, false)] newWorld) =
  isLayerCollisionEnabled (single_layer 2) (single_layer 1)
    (set_layers [(Layer.Enemy, Layer.Player, false)] newWorld).
Proof.
  apply (layer_matrix_symmetric [(Layer.Enemy, Layer.Player, false)] 1 2); lia.
Defined.

(** * Rebuilding the index map *)

Lemma rebuild_prefix (cs : list ColliderEntry) (k : nat) :
  (k <= length cs)%nat -> NoDup (entityId <$> cs) ->
  forall (id : EntityID) (i : nat),
    fold_left (fun (m : gmap EntityID nat) i =>
        match cs !! i with
        | Some e => <[entityId e := i]> m
        | None => m
        end) (seq 0 k) ∅ !! id = Some i <->
    (i < k)%nat /\ exists e, cs !! i = Some e /\ entityId e = id.
Proof.
  intros Hk Hnd. induction k as [|k IH]; intros id i.
  - simpl. rewrite lookup_empty. split; [discriminate|lia].
  - rewrite seq_S, fold_left_app. simpl.
    destruct (lookup_lt_is_Some_2 cs k ltac:(lia)) as [e He]. rewrite He.
    rewrite lookup_insert_Some, (IH ltac:(lia)). split.
    + intros [[<- <-]|[Hne (Hi & e' & He' & Hid)]].
      * split; [lia|eauto].
      * split; [lia|eauto].
    + intros (Hi & e' & He' & Hid).
      destruct (decide (i = k)) as [->|Hik].
      * left. split; congruence.
      * right. split; [|split; [lia|eauto]].
        intros Heq. apply Hik.
        apply (NoDup_lookup _ i k id Hnd); rewrite list_lookup_fmap.
        -- rewrite He'. simpl. congruence.
        -- rewrite He. simpl. congruence.
Qed.

(** X5. [rebuildIndexMap] leaves the entries alone; when their identifiers
    are pairwise distinct the rebuilt map is consistent with them, and on a
    world whose map is already consistent it changes nothing. *)
Theorem rebuildIndexMap_spec (w : CollisionWorld) :
  NoDup (entityId <$> colliders_ w) ->
  colliders_ (rebuildIndexMap w) = colliders_ w /\
  index_map_ok (rebuildIndexMap w) /\
  (index_map_ok w -> rebuildIndexMap w = w).
Proof.
  intros Hnd. split; [reflexivity|].
  assert (Hok : index_map_ok (rebuildIndexMap w)).
  { intros id i. unfold rebuildIndexMap, for_range. simpl. rewrite Nat.sub_0_r.
    rewrite (rebuild_prefix (colliders_ w) (length (colliders_ w)) (le_n _) Hnd).
    split; [intros [_ H]; exact H|].
    intros (e & He & Hid). split; [eapply lookup_lt_Some, He|eauto]. }
  split; [exact Hok|]. intros Hw.
  assert (Hm : entityIndexMap_ (rebuildIndexMap w) = entityIndexMap_ w).
  { apply map_eq. intros id.
    destruct (entityIndexMap_ (rebuildIndexMap w) !! id) as [i|] eqn:E.
    - symmetry. apply Hw. apply (Hok id i), E.
    - destruct (entityIndexMap_ w !! id) as [j|] eqn:E'; [|reflexivity].
      apply Hw in E'. apply (Hok id j) in E'. congruence. }
  destruct w as [cs m lm]. unfold rebuildIndexMap, with_colliders in *. simpl in *.
  rewrite Hm. reflexivity.
Qed.

Lemma rebuildIndexMap_spec_witness :
  colliders_ (rebuildIndexMap world_three) = colliders_ world_three /\
  index_map_ok (rebuildIndexMap world_three) /\
  (index_map_ok world_three -> rebuildIndexMap world_three = world_three).
Proof.
  apply (rebuildIndexMap_spec world_three).
  apply index_map_NoDup. exact (proj1 world_inv_world_three).
Defined.

(** * Further properties of registration, update and removal *)

Lemma elem_entry_of (w : CollisionWorld) (x : ColliderEntry) :
  index_map_ok w -> x ∈ colliders_ w <-> entry_of w (entityId x) = Some x.
Proof.
  intros Hok. split.
  - intros Hx. apply list_elem_of_lookup in Hx as [i Hi].
    apply (entry_of_index w i x Hok Hi).
  - apply entry_of_elem.
Qed.

Lemma entries_NoDup (w : CollisionWorld) : index_map_ok w -> NoDup (colliders_ w).
Proof. intros Hok. apply (NoDup_fmap_1 entityId), index_map_NoDup, Hok. Qed.

(** X6. [removeCollider] on an unregistered identifier returns the world as
    it is; on a registered one it takes exactly that entity's entry out of
    the sequence (the remaining entries are the old ones up to order), and a
    second [removeCollider] of the same identifier changes nothing. *)
Theorem removeCollider_removes_one (w : CollisionWorld) (id : EntityID) :
  world_inv w ->
  (hasCollider id w = false -> removeCollider id w = Some w) /\
  (forall e, getCollider id w = Some (Some e) ->
     exists w', removeCollider id w = Some w' /\
       colliders_ w ≡ₚ e :: colliders_ w' /\
       removeCollider id w' = Some w').
Proof.
  intros Hinv. pose proof Hinv as [Hok Hsz]. split.
  - intros Hno. apply removeCollider_unregistered, hasCollider_false, Hno.
  - intros e He. rewrite (getCollider_entry_of w id Hok) in He. injection He as He.
    destruct (entry_of_Some w id e Hok He) as (Hid & i & Hi & Hei).
    destruct (removeCollider_registered w id i Hinv Hi)
      as (w' & Hrm & [Hok' Hsz'] & Hlen & Hnone & _ & Hother).
    exists w'. split; [exact Hrm|]. split; [|apply removeCollider_unregistered, Hnone].
    assert (Hnotin : e ∉ colliders_ w').
    { intros Hin. apply (elem_entry_of w' e Hok') in Hin.
      unfold entry_of in Hin. rewrite Hid, Hnone in Hin. discriminate. }
    apply NoDup_Permutation.
    + apply entries_NoDup, Hok.
    + apply NoDup_cons. split; [exact Hnotin|apply entries_NoDup, Hok'].
    + intros x. rewrite elem_of_cons, (elem_entry_of w x Hok), (elem_entry_of w' x Hok').
      destruct (decide (entityId x = id)) as [Hx|Hx].
      * rewrite Hx, He. unfold entry_of at 1. rewrite Hnone. simpl.
        split; [intros [= ->]; left; reflexivity|].
        intros [->|H]; [reflexivity|discriminate].
      * rewrite (Hother _ Hx). split; [auto|].
        intros [->|H]; [congruence|exact H].
Qed.

Lemma removeCollider_removes_one_witness :
  (hasCollider 1 world_three = false -> removeCollider 1 world_three = Some world_three) /\
  (forall e, getCollider 1 world_three = Some (Some e) ->
     exists w', removeCollider 1 world_three = Some w' /\
       colliders_ world_three ≡ₚ e :: colliders_ w' /\
       removeCollider 1 w' = Some w').
Proof. exact (removeCollider_removes_one world_three 1 world_inv_world_three). Defined.

(** X7. [addCollider] returns a world in which the identifier is
    registered and its entry is the last of the sequence, also when the
    identifier was registered before; the count grows by one for a new
    identifier and stays for a registered one; the layer matrix is kept. *)
Theorem addCollider_appends (w : CollisionWorld) (id : EntityID) (x y sx sy : float)
    (col : ColliderComponent) :
  world_inv w -> Z.of_nat (length (colliders_ w)) + 1 < 2 ^ 64 ->
  exists w', addCollider id x y sx sy col w = Some w' /\
    hasCollider id w' = true /\
    last (colliders_ w') =
      Some {| entityId := id; posX := x; posY := y; scaleX := sx; scaleY := sy;
              collider := col |} /\
    entityIndexMap_ w' !! id = Some (getColliderCount w' - 1)%nat /\
    getColliderCount w' =
      (if hasCollider id w then getColliderCount w else S (getColliderCount w)) /\
    layerMatrix_ w' = layerMatrix_ w.
Proof.
  intros Hinv Hcap.
  destruct (addCollider_spec w id x y sx sy col Hinv Hcap)
    as (w' & Hadd & [Hok' _] & Hself & _ & Hlen & Hlast & Hmat).
  exists w'. split; [exact Hadd|].
  destruct (entry_of_Some w' id _ Hok' Hself) as (_ & i & Hi & Hei).
  split; [apply hasCollider_true; eauto|]. split; [exact Hlast|].
  split; [|split; [exact Hlen|exact Hmat]].
  rewrite Hi. f_equal. rewrite last_lookup in Hlast.
  unfold getColliderCount. replace (length (colliders_ w') - 1)%nat
    with (pred (length (colliders_ w'))) by lia.
  eapply (index_map_inj w' i _ _ _ Hok' Hei Hlast). reflexivity.
Qed.

Lemma addCollider_appends_witness :
  exists w', addCollider 1 (F32.of_Z 3) (F32.of_Z 4) F32.one F32.one
               (mkCollider F32.one F32.one Layer.Default Layer.All) world_three = Some w' /\
    hasCollider 1 w' = true /\
    last (colliders_ w') =
      Some {| entityId := 1; posX := F32.of_Z 3; posY := F32.of_Z 4;
              scaleX := F32.one; scaleY := F32.one;
              collider := mkCollider F32.one F32.one Layer.Default Layer.All |} /\
    entityIndexMap_ w' !! 1%N = Some (getColliderCount w' - 1)%nat /\
    getColliderCount w' =
      (if hasCollider 1 world_three then getColliderCount world_three
       else S (getColliderCount world_three)) /\
    layerMatrix_ w' = layerMatrix_ world_three.
Proof.
  apply (addCollider_appends world_three 1 (F32.of_Z 3) (F32.of_Z 4) F32.one F32.one
           (mkCollider F32.one F32.one Layer.Default Layer.All) world_inv_world_three).
  vm_compute. reflexivity.
Defined.

(** X8. [updatePosition] and [updateScale] return the world as it is for an
    unregistered identifier; for a registered one they write the two fields
    of that entity's entry and keep its other fields, the other entries, the
    order of the sequence and the index map. *)
Theorem update_in_place (w : CollisionWorld) (id : EntityID) (x y sx sy : float) :
  world_inv w ->
  (hasCollider id w = false ->
     updatePosition id x y w = Some w /\ updateScale id sx sy w = Some w) /\
  (forall e, getCollider id w = Some (Some e) ->
     exists wp ws,
       updatePosition id x y w = Some wp /\ updateScale id sx sy w = Some ws /\
       getCollider id wp =
         Some (Some {| entityId := id; posX := x; posY := y; scaleX := scaleX e;
                       scaleY := scaleY e; collider := collider e |}) /\
       getCollider id ws =
         Some (Some {| entityId := id; posX := posX e; posY := posY e; scaleX := sx;
                       scaleY := sy; collider := collider e |}) /\
       (forall id', id' <> id ->
          getCollider id' wp = getCollider id' w /\ getCollider id' ws = getCollider id' w) /\
       entityId <$> colliders_ wp = entityId <$> colliders_ w /\
       entityId <$> colliders_ ws = entityId <$> colliders_ w /\
       entityIndexMap_ wp = entityIndexMap_ w /\ entityIndexMap_ ws = entityIndexMap_ w).
Proof.
  intros Hinv. pose proof Hinv as [Hok _]. split.
  - intros Hno. apply hasCollider_false in Hno.
    unfold updatePosition, updateScale. rewrite Hno. auto.
  - intros e He. rewrite (getCollider_entry_of w id Hok) in He. injection He as He.
    destruct (entry_of_Some w id e Hok He) as (Hid & i & Hi & Hei).
    destruct (updatePosition_spec w id x y Hinv) as (wp & Hup & [Hokp _] & _ & Hop & Hsp).
    destruct (updateScale_spec w id sx sy Hinv) as (ws & Hus & [Hoks _] & _ & Hos & Hss).
    rewrite He in Hsp, Hss.
    exists wp, ws. split; [exact Hup|]. split; [exact Hus|].
    split; [rewrite (getCollider_entry_of wp id Hokp), Hsp; reflexivity|].
    split; [rewrite (getCollider_entry_of ws id Hoks), Hss; reflexivity|].
    split.
    { intros id' Hd. split; apply getCollider_other; auto. }
    unfold updatePosition in Hup. unfold updateScale in Hus.
    rewrite Hi in Hup, Hus. rewrite Hei in Hup, Hus. simpl in Hup, Hus.
    injection Hup as <-. injection Hus as <-. simpl.
    assert (Hids : forall e', entityId e' = entityId e ->
              entityId <$> <[i := e']> (colliders_ w) = entityId <$> colliders_ w).
    { intros e' He'. rewrite list_fmap_insert, He'. apply list_insert_id.
      rewrite list_lookup_fmap, Hei. reflexivity. }
    repeat split; apply Hids; reflexivity.
Qed.

Lemma update_in_place_witness :
  updatePosition 9 F32.one F32.one world_three = Some world_three /\
  updateScale 9 F32.one F32.one world_three = Some world_three.
Proof.
  apply (proj1 (update_in_place world_three 9 F32.one F32.one F32.one F32.one
                  world_inv_world_three)).
  vm_compute. reflexivity.
Defined.

(** * Further properties of detection *)

Lemma detect_pairs_length (cs : list ColliderEntry) :
  2 * Z.of_nat (length (detect_pairs cs)) <=
  Z.of_nat (length cs) * (Z.of_nat (length cs) - 1).
Proof.
  induction cs as [|a cs IH]; simpl detect_pairs; [simpl; lia|].
  rewrite length_app, length_map.
  pose proof (filter_length_le (entries_intersect a) cs) as Hf.
  simpl length. lia.
Qed.

Lemma detect_pairs_first (cs : list ColliderEntry) (info : CollisionInfo) :
  info ∈ detect_pairs cs -> entityA info ∈ (entityId <$> cs).
Proof.
  intros H. apply detect_pairs_elem in H as (i & j & a & b & _ & Ha & _ & _ & ->).
  simpl. apply list_elem_of_fmap. exists a. split; [reflexivity|].
  apply list_elem_of_lookup. eauto.
Qed.

Lemma detect_pairs_NoDup (cs : list ColliderEntry) :
  NoDup (entityId <$> cs) -> NoDup (info_pair <$> detect_pairs cs).
Proof.
  induction cs as [|a cs IH]; simpl; intros Hnd; [constructor|].
  apply NoDup_cons in Hnd as [Ha Hnd].
  rewrite fmap_app. apply NoDup_app. split; [|split; [|apply IH, Hnd]].
  - change (map (pair_info a)) with (fmap (M := list) (pair_info a)).
    rewrite <- list_fmap_compose.
    apply (NoDup_fmap_2_strong _).
    + intros x y Hx Hy Heq.
      assert (Hxy : entityId x = entityId y)
        by (unfold compose, info_pair in Heq; simpl in Heq; congruence).
      apply list_elem_of_In, filter_In in Hx as [Hx _].
      apply list_elem_of_In, filter_In in Hy as [Hy _].
      apply list_elem_of_In, list_elem_of_lookup in Hx as [i Hi].
      apply list_elem_of_In, list_elem_of_lookup in Hy as [j Hj].
      assert (i = j).
      { apply (NoDup_lookup _ i j (entityId x) Hnd); rewrite list_lookup_fmap.
        - rewrite Hi. reflexivity.
        - rewrite Hj. simpl. congruence. }
      congruence.
    + apply (NoDup_fmap_1 entityId).
      apply (sublist_NoDup _ _ Hnd).
      apply fmap_sublist. clear. induction cs as [|c cs IH]; simpl; [constructor|].
      destruct (entries_intersect a c); [apply sublist_skip|apply sublist_cons]; exact IH.
  - intros p Hp Hq.
    apply list_elem_of_fmap in Hp as (info & -> & Hinfo).
    apply list_elem_of_fmap in Hq as (info' & Heq & Hinfo').
    apply list_elem_of_In, in_map_iff in Hinfo as (b & <- & _).
    apply detect_pairs_first in Hinfo'. injection Heq as Heq _.
    simpl in Heq. rewrite <- Heq in Hinfo'. contradiction.
Qed.

(** X9. On a consistent world [detectCollisions] reports no entity against
    itself and no pair of identifiers twice, in either order; with [n]
    entries it returns at most [n (n - 1) / 2] results. *)
Theorem detectCollisions_pairs_once (w : CollisionWorld) :
  index_map_ok w ->
  NoDup (info_pair <$> detectCollisions w) /\
  (forall info, info ∈ detectCollisions w ->
     entityA info <> entityB info /\
     forall info', info' ∈ detectCollisions w ->
       info_pair info' <> (entityB info, entityA info)) /\
  2 * Z.of_nat (length (detectCollisions w)) <=
    Z.of_nat (getColliderCount w) * (Z.of_nat (getColliderCount w) - 1).
Proof.
  intros Hok. rewrite detectCollisions_eq.
  split; [apply detect_pairs_NoDup, index_map_NoDup, Hok|].
  split; [|apply detect_pairs_length].
  intros info Hin. apply detect_pairs_elem in Hin as (i & j & a & b & Hij & Ha & Hb & _ & ->).
  split.
  - simpl. intros Heq. pose proof (index_map_inj w i j a b Hok Ha Hb Heq). lia.
  - intros info' Hin'.
    apply detect_pairs_elem in Hin' as (i' & j' & a' & b' & Hij' & Ha' & Hb' & _ & ->).
    unfold info_pair. simpl. intros [= H1 H2].
    pose proof (index_map_inj w i' j a' b Hok Ha' Hb H1).
    pose proof (index_map_inj w j' i b' a Hok Hb' Ha H2). lia.
Qed.

Lemma detectCollisions_pairs_once_witness :
  NoDup (info_pair <$> detectCollisions world_three) /\
  (forall info, info ∈ detectCollisions world_three ->
     entityA info <> entityB info /\
     forall info', info' ∈ detectCollisions world_three ->
       info_pair info' <> (entityB info, entityA info)) /\
  2 * Z.of_nat (length (detectCollisions world_three)) <=
    Z.of_nat (getColliderCount world_three) * (Z.of_nat (getColliderCount world_three) - 1).
Proof. exact (detectCollisions_pairs_once world_three (proj1 world_inv_world_three)). Defined.

(** X10. On a consistent world the scan for one entity agrees with the
    pairwise check: for [b] other than [id], [detectCollisionsForEntity(id)]
    holds a record with second identifier [b] exactly when
    [checkCollision(id, b, outInfo)] returns true, and that record is what
    the check writes to [outInfo]; no record has [id] as second identifier. *)
Theorem detectCollisionsForEntity_checkCollision (w : CollisionWorld) (id b : EntityID)
    (info outInfo : CollisionInfo) :
  index_map_ok w ->
  exists res, detectCollisionsForEntity id w = Some res /\
    (forall info', info' ∈ res -> entityA info' = id /\ entityB info' <> id) /\
    (b <> id ->
     (info ∈ res /\ entityB info = b <-> checkCollision id b outInfo w = Some (true, info))).
Proof.
  intros Hok. rewrite (detectCollisionsForEntity_eq w id Hok).
  rewrite (checkCollision_eq w id b outInfo Hok).
  eexists. split; [reflexivity|].
  destruct (entry_of w id) as [target|] eqn:Et.
  2:{ split; [intros info' H; inversion H|]. intros _. split; [intros [H _]; inversion H|].
      discriminate. }
  destruct (entry_of_Some w id target Hok Et) as (Hidt & _).
  split.
  - intros info' Hin. apply list_elem_of_In, in_map_iff in Hin as (other & <- & Hother).
    apply filter_In in Hother as [_ Hrep]. unfold reported_for in Hrep.
    apply andb_true_iff in Hrep as [Hrep _]. apply andb_true_iff in Hrep as [Hne _].
    apply negb_true_iff, N.eqb_neq in Hne. simpl. auto.
  - intros Hb. split.
    + intros [Hin <-].
      apply list_elem_of_In, in_map_iff in Hin as (other & <- & Hother).
      apply filter_In in Hother as [Hother Hrep].
      apply list_elem_of_In, (elem_entry_of w other Hok) in Hother. simpl.
      rewrite Hother. unfold reported_for in Hrep.
      apply andb_true_iff in Hrep as [Hrep Hmask]. apply andb_true_iff in Hrep as [_ Hint].
      rewrite Hint, Hmask. simpl. unfold pair_info. rewrite Hidt. reflexivity.
    + destruct (entry_of w b) as [eb|] eqn:Eb; [|discriminate].
      destruct (entry_of_Some w b eb Hok Eb) as (Hidb & _).
      destruct (entries_intersect target eb) eqn:Hint; [|discriminate].
      destruct (canCollideWith _ _) eqn:Hmask; [|discriminate]. simpl.
      intros [= <-]. split; [|reflexivity].
      apply list_elem_of_In, in_map_iff. exists eb. split.
      * unfold pair_info. rewrite Hidt, Hidb. reflexivity.
      * apply filter_In. split; [apply list_elem_of_In, (entry_of_elem w b), Eb|].
        unfold reported_for. rewrite Hint, Hmask, Hidb.
        replace (b =? id)%N with false by (symmetry; apply N.eqb_neq, Hb). reflexivity.
Qed.

Lemma detectCollisionsForEntity_checkCollision_witness :
  exists res, detectCollisionsForEntity 2 world_masked = Some res /\
    (forall info', info' ∈ res -> entityA info' = 2%N /\ entityB info' <> 2%N) /\
    (1%N <> 2%N ->
     (pair_info (square 2 5 5 10 Layer.Terrain Layer.All)
                (square 1 0 0 10 Layer.Player Layer.Enemy) ∈ res /\
      entityB (pair_info (square 2 5 5 10 Layer.Terrain Layer.All)
                         (square 1 0 0 10 Layer.Player Layer.Enemy)) = 1%N <->
      checkCollision 2 1 blank_info world_masked =
        Some (true, pair_info (square 2 5 5 10 Layer.Terrain Layer.All)
                              (square 1 0 0 10 Layer.Player Layer.Enemy)))).
Proof.
  exact (detectCollisionsForEntity_checkCollision world_masked 2 1 _ blank_info
           (proj1 world_inv_world_masked)).
Defined.

(** X11. On a consistent world, when [checkCollision(a, b)] returns true for
    two different identifiers, [detectCollisions] holds a record for the
    pair, in one order or the other, and [queryAABB] with the world box of
    [a] returns [b], whatever the filter. *)
Theorem checkCollision_implies_detected (w : CollisionWorld) (a b : EntityID)
    (outInfo out' : CollisionInfo) (F : CollisionLayer) :
  index_map_ok w -> a <> b ->
  checkCollision a b outInfo w = Some (true, out') ->
  (exists info, info ∈ detectCollisions w /\
     (info_pair info = (a, b) \/ info_pair info = (b, a))) /\
  b ∈ queryAABB (boundsA out') F w.
Proof.
  intros Hok Hab Hc. rewrite (checkCollision_eq w a b outInfo Hok) in Hc.
  destruct (entry_of w a) as [ea|] eqn:Ea; [|discriminate].
  destruct (entry_of w b) as [eb|] eqn:Eb; [|discriminate].
  destruct (entries_intersect ea eb) eqn:Hint; [|discriminate].
  destruct (canCollideWith _ _); [|discriminate]. simpl in Hc. injection Hc as <-.
  destruct (entry_of_Some w a ea Hok Ea) as (Hida & _).
  destruct (entry_of_Some w b eb Hok Eb) as (Hidb & _).
  split.
  - assert (Hea' : ea ∈ colliders_ w) by (apply (entry_of_elem w a), Ea).
    apply list_elem_of_lookup in Hea' as [i Hi].
    assert (Heb' : eb ∈ colliders_ w) by (apply (entry_of_elem w b), Eb).
    apply list_elem_of_lookup in Heb' as [j Hj].
    assert (Hij : i <> j) by (intros ->; rewrite Hi in Hj; congruence).
    rewrite detectCollisions_eq.
    destruct (decide (i < j)%nat) as [Hlt|Hge].
    + exists (pair_info ea eb). split; [|left; unfold info_pair; simpl; congruence].
      apply detect_pairs_elem. exists i, j, ea, eb. repeat split; auto.
    + exists (pair_info eb ea). split; [|right; unfold info_pair; simpl; congruence].
      apply detect_pairs_elem. exists j, i, eb, ea. repeat split; auto; [lia|].
      unfold entries_intersect. rewrite AABB_intersects_sym. exact Hint.
  - simpl. unfold queryAABB.
    rewrite (fold_left_push (fun e => AABB_intersects (getBounds ea) (getBounds e)) entityId
               (colliders_ w) []). simpl.
    apply list_elem_of_In, in_map_iff. exists eb. split; [exact Hidb|].
    apply filter_In. split; [apply list_elem_of_In, (entry_of_elem w b), Eb|exact Hint].
Qed.

Lemma checkCollision_implies_detected_witness :
  (exists info, info ∈ detectCollisions world_masked /\
     (info_pair info = (2%N, 1%N) \/ info_pair info = (1%N, 2%N))) /\
  1%N ∈ queryAABB
          (boundsA (pair_info (square 2 5 5 10 Layer.Terrain Layer.All)
                              (square 1 0 0 10 Layer.Player Layer.Enemy)))
          Layer.None world_masked.
Proof.
  apply (checkCollision_implies_detected world_masked 2 1 blank_info _ Layer.None
           (proj1 world_inv_world_masked)); [discriminate|].
  vm_compute. reflexivity.
Defined.

(** X12. [checkCollision] does not set the case [a = b] apart: on a
    consistent world [checkCollision(a, a)] is true exactly when [a] is
    registered, its world box has [left < right] and [top < bottom], and its
    mask accepts its own layer. *)
Theorem checkCollision_self (w : CollisionWorld) (a : EntityID) (outInfo : CollisionInfo) :
  index_map_ok w ->
  checkCollision2 a a outInfo w = Some true <->
  exists e, getCollider a w = Some (Some e) /\
    F32.ltb (AABB_left (getBounds e)) (AABB_right (getBounds e)) = true /\
    F32.ltb (AABB_top (getBounds e)) (AABB_bottom (getBounds e)) = true /\
    Z.land (collidesWith (getCollisionMask (collider e)))
           (layer (getCollisionMask (collider e))) <> 0.
Proof.
  intros Hok. unfold checkCollision2.
  rewrite (checkCollision_eq w a a outInfo Hok), (getCollider_entry_of w a Hok).
  destruct (entry_of w a) as [e|] eqn:Ee.
  2:{ simpl. split; [discriminate|]. intros (e & [=] & _). }
  unfold entries_intersect, canCollideWith. split.
  - intros H. exists e. split; [reflexivity|].
    destruct (AABB_intersects (getBounds e) (getBounds e)) eqn:Hint; [|discriminate].
    destruct (hasLayer _ _) eqn:Hl; [|discriminate].
    apply AABB_intersects_iff in Hint as (H1 & _ & H3 & _).
    apply hasLayer_iff in Hl. auto.
  - intros (e' & [= <-] & H1 & H3 & Hl).
    replace (AABB_intersects (getBounds e) (getBounds e)) with true
      by (symmetry; apply AABB_intersects_iff; auto).
    apply hasLayer_iff in Hl. rewrite Hl. reflexivity.
Qed.

Lemma checkCollision_self_witness :
  checkCollision2 1 1 blank_info world_one = Some true <->
  exists e, getCollider 1 world_one = Some (Some e) /\
    F32.ltb (AABB_left (getBounds e)) (AABB_right (getBounds e)) = true /\
    F32.ltb (AABB_top (getBounds e)) (AABB_bottom (getBounds e)) = true /\
    Z.land (collidesWith (getCollisionMask (collider e)))
           (layer (getCollisionMask (collider e))) <> 0.
Proof. exact (checkCollision_self world_one 1 blank_info (proj1 world_inv_world_one)). Defined.

(** * Further properties of callback dispatch *)

Lemma fold_dispatch_no_callbacks {S : Type} (l : list CollisionInfo) (s : S) :
  fold_left (dispatch no_callbacks) l s = s.
Proof.
  induction l as [|info l IH]; simpl; [reflexivity|].
  unfold dispatch at 2. simpl. destruct (info_isTrigger info); exact IH.
Qed.

(** X13. [processCollisions] with no handler installed leaves the caller's
    state alone; it never reads the trigger-exit slot, so no call of the
    trigger-exit handler is ever made; with the three logging handlers it
    makes one call per result of [detectCollisions]. *)
Theorem processCollisions_handlers (w : CollisionWorld) :
  (forall (S : Type) (s : S), processCollisions no_callbacks w s = s) /\
  (forall (S : Type) (cb : Callbacks S) (h : option (EntityID -> EntityID -> S -> S)) (s : S),
     processCollisions (with_trigger_exit h cb) w s = processCollisions cb w s) /\
  (forall a b, TriggerExitCall a b ∉ processCollisions logging w []) /\
  length (processCollisions logging w []) = length (detectCollisions w).
Proof.
  split; [|split; [|split]].
  - intros S s. apply fold_dispatch_no_callbacks.
  - intros S cb h s. unfold processCollisions.
    apply fold_left_pointwise. intros acc info. reflexivity.
  - intros a b. rewrite processCollisions_logging. simpl. intros Hin.
    apply list_elem_of_In, in_map_iff in Hin as (info & Hinfo & _).
    unfold call_of in Hinfo. destruct (info_isTrigger info); discriminate.
  - rewrite processCollisions_logging. simpl. apply length_map.
Qed.

(** * Further properties of the geometry and of the layers *)

Lemma ltb_nan_l (x y : float) : is_nan x = true -> F32.ltb x y = false.
Proof. destruct x; try discriminate. reflexivity. Qed.

Lemma ltb_nan_r (x y : float) : is_nan y = true -> F32.ltb x y = false.
Proof. destruct y; try discriminate. destruct x; reflexivity. Qed.

Lemma leb_nan_l (x y : float) : is_nan x = true -> F32.leb x y = false.
Proof. destruct x; try discriminate. reflexivity. Qed.

(** X14. [intersects] is symmetric; a box intersects itself exactly when
    [left < right] and [top < bottom]; a box whose [x] or [y] is a NaN
    intersects no box and contains no point. *)
Theorem intersects_symmetric (A B : AABB) :
  AABB_intersects A B = AABB_intersects B A /\
  AABB_intersects A A =
    F32.ltb (AABB_left A) (AABB_right A) && F32.ltb (AABB_top A) (AABB_bottom A) /\
  (is_nan (AABB_x A) = true \/ is_nan (AABB_y A) = true ->
   AABB_intersects A B = false /\ AABB_intersects B A = false /\
   forall px py, AABB_contains A px py = false).
Proof.
  split; [apply AABB_intersects_sym|]. split.
  - unfold AABB_intersects.
    destruct (F32.ltb (AABB_left A) (AABB_right A)), (F32.ltb (AABB_top A) (AABB_bottom A));
      reflexivity.
  - intros Hnan.
    assert (HAB : AABB_intersects A B = false).
    { unfold AABB_intersects, AABB_left, AABB_top. destruct Hnan as [H|H].
      - rewrite (ltb_nan_l _ _ H). reflexivity.
      - rewrite (ltb_nan_l _ _ H). rewrite !andb_false_r. reflexivity. }
    split; [exact HAB|]. split; [rewrite <- AABB_intersects_sym; exact HAB|].
    intros px py. unfold AABB_contains, AABB_left, AABB_top. destruct Hnan as [H|H].
    + rewrite (leb_nan_l _ _ H). reflexivity.
    + rewrite (leb_nan_l _ _ H). rewrite !andb_false_r. reflexivity.
Qed.

Lemma hasLayer_lor_l (a b l : CollisionLayer) :
  hasLayer (layer_or a b) l = hasLayer a l || hasLayer b l.
Proof.
  unfold hasLayer, layer_or, Layer.None. rewrite Z.land_lor_distr_l.
  destruct (Z.land a l =? 0) eqn:Ea, (Z.land b l =? 0) eqn:Eb; simpl;
    rewrite ?negb_true_iff, ?negb_false_iff, ?Z.eqb_eq, ?Z.eqb_neq in *;
    rewrite Z.lor_eq_0_iff; tauto.
Qed.

Lemma hasLayer_comm (a b : CollisionLayer) : hasLayer a b = hasLayer b a.
Proof. unfold hasLayer. rewrite Z.land_comm. reflexivity. Qed.

(** X15. The layer test [hasLayer] finds a bit in a union of layers exactly
    when it finds one in a member, on either side; it finds none against
    [None] or against the complement of the layer itself, and [All] passes
    every layer that has one of the bits 0 to 31. *)
Theorem hasLayer_algebra (a b l : CollisionLayer) :
  hasLayer (layer_or a b) l = hasLayer a l || hasLayer b l /\
  hasLayer l (layer_or a b) = hasLayer l a || hasLayer l b /\
  hasLayer Layer.None l = false /\ hasLayer l Layer.None = false /\
  hasLayer (layer_not l) l = false /\
  (0 < l < 2 ^ 32 -> hasLayer Layer.All l = true).
Proof.
  split; [apply hasLayer_lor_l|].
  split; [rewrite !(hasLayer_comm l); apply hasLayer_lor_l|].
  split; [reflexivity|].
  split; [unfold hasLayer, Layer.None; rewrite Z.land_0_r; reflexivity|].
  split.
  - unfold hasLayer, layer_not, Layer.None.
    replace (Z.land (not32 l) l) with 0; [reflexivity|].
    symmetry. apply Z.bits_inj'. intros n Hn. unfold not32.
    rewrite !Z.land_spec, Z.lnot_spec, Z.bits_0 by assumption.
    destruct (Z.testbit l n); simpl; rewrite ?andb_false_r; reflexivity.
  - intros Hl. apply hasLayer_iff. unfold Layer.All.
    change 0xFFFFFFFF with (Z.ones 32). rewrite Z.land_comm, Z.land_ones by lia.
    rewrite Z.mod_small by lia. lia.
Qed.

Lemma compare_not_nan (a b : float) :
  is_nan a = false -> is_nan b = false -> exists c, SFcompare a b = Some c.
Proof.
  destruct a as [[]|[]| |[] ma ea], b as [[]|[]| |[] mb eb]; simpl; intros; try discriminate; eauto.
Qed.

(** Away from NaN, [std::min] is below and [std::max] above both arguments. *)
Lemma min_max_bounds (a b : float) :
  is_nan a = false -> is_nan b = false ->
  F32.leb (F32.min a b) a = true /\ F32.leb (F32.min a b) b = true /\
  F32.leb a (F32.max a b) = true /\ F32.leb b (F32.max a b) = true.
Proof.
  intros Ha Hb.
  assert (Hrefl : forall x, is_nan x = false -> F32.leb x x = true).
  { intros x Hx. unfold F32.leb, SFleb.
    pose proof (F32Facts.ltb_irrefl x) as Hl. unfold F32.ltb, SFltb in Hl.
    pose proof (F32Facts.compare_antisym x x) as Hs.
    destruct (compare_not_nan x x Hx Hx) as [c Hc]. rewrite Hc in *.
    destruct c; simpl in *; congruence. }
  assert (Htot : forall x y, is_nan x = false -> is_nan y = false ->
            F32.ltb y x = false -> F32.leb x y = true).
  { intros x y Hx Hy. unfold F32.ltb, F32.leb, SFltb, SFleb.
    rewrite (F32Facts.compare_antisym x y).
    destruct (compare_not_nan x y Hx Hy) as [c ->]. destruct c; simpl; congruence. }
  unfold F32.min, F32.max.
  destruct (F32.ltb b a) eqn:Eba, (F32.ltb a b) eqn:Eab;
    repeat split; auto using F32Facts.ltb_leb.
Qed.

(** X16. [merge] puts the origin of the result at the smaller [x] and the
    smaller [y] of the two boxes (below both, away from NaN), with extents
    [maxRight - minX] and [maxBottom - minY]; these are rounded, so the
    right edge of the result can fall short of the right edge of an input
    box: the merge of the point [(-2^25, 0)] with the unit square at the
    origin has right edge [0] and does not contain the corner [(1, 1)]. *)
Theorem merge_origin_and_rounding (A B : AABB) :
  (is_nan (AABB_x A) = false -> is_nan (AABB_x B) = false ->
   F32.leb (AABB_left (AABB_merge A B)) (AABB_left A) = true /\
   F32.leb (AABB_left (AABB_merge A B)) (AABB_left B) = true) /\
  (is_nan (AABB_y A) = false -> is_nan (AABB_y B) = false ->
   F32.leb (AABB_top (AABB_merge A B)) (AABB_top A) = true /\
   F32.leb (AABB_top (AABB_merge A B)) (AABB_top B) = true) /\
  AABB_width (AABB_merge A B) =
    F32.sub (F32.max (AABB_right A) (AABB_right B)) (F32.min (AABB_left A) (AABB_left B)) /\
  (bounds_valid far_left_box /\ bounds_valid unit_box /\
   AABB_right (AABB_merge far_left_box unit_box) = F32.zero /\
   F32.ltb (AABB_right (AABB_merge far_left_box unit_box)) (AABB_right unit_box) = true /\
   AABB_contains unit_box F32.one F32.one = true /\
   AABB_contains (AABB_merge far_left_box unit_box) F32.one F32.one = false).
Proof.
  split; [|split; [|split; [reflexivity|]]].
  - intros Ha Hb. destruct (min_max_bounds _ _ Ha Hb) as (H1 & H2 & _). auto.
  - intros Ha Hb. destruct (min_max_bounds _ _ Ha Hb) as (H1 & H2 & _). auto.
  - repeat split; vm_compute; reflexivity.
Qed.

(** * Further properties of the point query *)

Lemma filter_map_sublist {A B : Type} (f : A -> B) (p q : A -> bool) (l : list A) :
  (forall x, p x = true -> q x = true) ->
  map f (List.filter p l) `sublist_of` map f (List.filter q l).
Proof.
  intros Hpq. induction l as [|x l IH]; simpl; [constructor|].
  destruct (p x) eqn:Hp.
  - rewrite (Hpq x Hp). simpl. apply sublist_skip, IH.
  - destruct (q x); simpl; [apply sublist_cons|]; exact IH.
Qed.

Lemma filter_map_ids_sublist (p : ColliderEntry -> bool) (l : list ColliderEntry) :
  map entityId (List.filter p l) `sublist_of` (entityId <$> l).
Proof.
  induction l as [|x l IH]; simpl; [constructor|].
  destruct (p x); simpl; [apply sublist_skip|apply sublist_cons]; exact IH.
Qed.

(** X17. On a consistent world [queryPoint] returns no identifier twice;
    with the filter [None] it returns nothing; with a 32-bit filter its
    result is a subsequence of the result without filter; and an identifier
    is returned for the union of two filters exactly when it is returned
    for one of them. *)
Theorem queryPoint_filter (w : CollisionWorld) (px py : float) (F1 F2 : CollisionLayer)
    (id : EntityID) :
  index_map_ok w ->
  NoDup (queryPoint px py F1 w) /\
  queryPoint px py Layer.None w = [] /\
  (0 <= F1 < 2 ^ 32 -> queryPoint px py F1 w `sublist_of` queryPoint2 px py w) /\
  (id ∈ queryPoint px py (layer_or F1 F2) w <->
   id ∈ queryPoint px py F1 w \/ id ∈ queryPoint px py F2 w).
Proof.
  intros Hok. unfold queryPoint2. rewrite !queryPoint_eq. split; [|split; [|split]].
  - apply (sublist_NoDup _ _ (index_map_NoDup w Hok)), filter_map_ids_sublist.
  - induction (colliders_ w) as [|e l IH]; simpl; [reflexivity|].
    rewrite andb_false_r. exact IH.
  - intros HF. apply filter_map_sublist. intros e He.
    apply andb_true_iff in He as [Hc Hl]. rewrite Hc. simpl.
    apply hasLayer_iff in Hl. apply hasLayer_iff. intros Hz. apply Hl.
    unfold Layer.All in Hz. change 0xFFFFFFFF with (Z.ones 32) in Hz.
    replace F1 with (Z.land F1 (Z.ones 32))
      by (rewrite Z.land_ones by lia; apply Z.mod_small; lia).
    rewrite <- Z.land_assoc, Hz. apply Z.land_0_r.
  - rewrite !list_elem_of_In, !in_map_iff. split.
    + intros (e & He & Hin). apply filter_In in Hin as [Hin Hp].
      apply andb_true_iff in Hp as [Hc Hl]. rewrite hasLayer_lor_l in Hl.
      apply orb_true_iff in Hl as [Hl|Hl]; [left|right]; exists e; split; auto;
        apply filter_In; rewrite Hc, Hl; auto.
    + intros [(e & He & Hin)|(e & He & Hin)]; apply filter_In in Hin as [Hin Hp];
        apply andb_true_iff in Hp as [Hc Hl]; exists e; split; auto;
        apply filter_In; rewrite Hc, hasLayer_lor_l, Hl, ?orb_true_r; auto.
Qed.

Lemma queryPoint_filter_witness :
  NoDup (queryPoint (F32.of_Z 10) (F32.of_Z 10) Layer.Default world_three) /\
  queryPoint (F32.of_Z 10) (F32.of_Z 10) Layer.None world_three = [] /\
  (0 <= Layer.Default < 2 ^ 32 ->
   queryPoint (F32.of_Z 10) (F32.of_Z 10) Layer.Default world_three
     `sublist_of` queryPoint2 (F32.of_Z 10) (F32.of_Z 10) world_three) /\
  (2%N ∈ queryPoint (F32.of_Z 10) (F32.of_Z 10) (layer_or Layer.Default Layer.Player)
           world_three <->
   2%N ∈ queryPoint (F32.of_Z 10) (F32.of_Z 10) Layer.Default world_three \/
   2%N ∈ queryPoint (F32.of_Z 10) (F32.of_Z 10) Layer.Player world_three).
Proof.
  exact (queryPoint_filter world_three (F32.of_Z 10) (F32.of_Z 10) Layer.Default
           Layer.Player 2 (proj1 world_inv_world_three)).
Defined.

(** * The unit scale *)

Lemma digits2_pos_xO (p : positive) :
  Z.pos (digits2_pos (xO p)) = Z.pos (digits2_pos p) + 1.
Proof. cbn [digits2_pos]. lia. Qed.

(** Multiplying a binary32 number by [1.0f] gives the number back. *)
Lemma mul_one (x : float) : F32.valid x -> F32.mul x F32.one = x.
Proof.
  unfold F32.valid. destruct x as [s|s| |s m e]; simpl valid_binary; intros Hv.
  - destruct s; reflexivity.
  - destruct s; reflexivity.
  - reflexivity.
  - change F32.one with (S754_finite false 8388608 (-23)).
    unfold F32.mul, SFmul. rewrite xorb_false_r.
    unfold bounded, canonical_mantissa in Hv. apply andb_true_iff in Hv as [Hc He].
    apply Z.eqb_eq in Hc. 
    rewrite (Pos.mul_comm m 8388608).
    assert (Hd : Z.pos (digits2_pos (8388608 * m)) = Z.pos (digits2_pos m) + 23).
    { change (8388608 * m)%positive
        with (m~0~0~0~0~0~0~0~0~0~0~0~0~0~0~0~0~0~0~0~0~0~0~0)%positive.
      rewrite !digits2_pos_xO. lia. }
    assert (Hs : SpecFloat.iter_pos shr_1 23
                   {| shr_m := Z.pos (8388608 * m); shr_r := false; shr_s := false |} =
                 {| shr_m := Z.pos m; shr_r := false; shr_s := false |})
      by reflexivity.
    unfold binary_round_aux, shr_fexp. cbn [Zdigits2 shr_record_of_loc]. rewrite Hd.
    replace (Z.pos (digits2_pos m) + 23 + (e + -23)) with (Z.pos (digits2_pos m) + e) by lia.
    rewrite Hc. replace (e - (e + -23)) with 23 by lia.
    unfold shr at 1. rewrite Hs.
    cbn [shr_m loc_of_shr_record round_nearest_even Zdigits2].
    replace (e + -23 + 23) with e by lia.
    rewrite Hc, Z.sub_diag. cbn [shr shr_m]. rewrite He. reflexivity.
Qed.

(** X18. For a collider whose size and offset are binary32 numbers, the
    box computed with scale [(1, 1)] is the box of the overload without
    scale; so an entry with unit scale, as the four-argument [addCollider]
    registers it, has the box [(x + offsetX, y + offsetY, width, height)]. *)
Theorem getBounds_unit_scale (c : ColliderComponent) (x y : float) :
  F32.valid (width_ c) -> F32.valid (height_ c) ->
  F32.valid (offsetX_ c) -> F32.valid (offsetY_ c) ->
  ColliderComponent_getBounds c x y F32.one F32.one = ColliderComponent_getBounds2 c x y /\
  forall id, getBounds {| entityId := id; posX := x; posY := y; scaleX := F32.one;
                          scaleY := F32.one; collider := c |} =
             mkAABB (F32.add x (offsetX_ c)) (F32.add y (offsetY_ c)) (width_ c) (height_ c).
Proof.
  intros Hw Hh Hx Hy.
  assert (H : ColliderComponent_getBounds c x y F32.one F32.one =
              ColliderComponent_getBounds2 c x y).
  { unfold ColliderComponent_getBounds, ColliderComponent_getBounds2, mkAABB.
    rewrite !mul_one by assumption. reflexivity. }
  split; [exact H|]. intros id. unfold getBounds. simpl. exact H.
Qed.

Lemma getBounds_unit_scale_witness :
  ColliderComponent_getBounds (mkCollider (F32.of_Z 10) (F32.of_Z 10) Layer.Default Layer.All)
    (F32.of_Z 5) (F32.of_Z 5) F32.one F32.one =
  ColliderComponent_getBounds2 (mkCollider (F32.of_Z 10) (F32.of_Z 10) Layer.Default Layer.All)
    (F32.of_Z 5) (F32.of_Z 5) /\
  forall id, getBounds {| entityId := id; posX := F32.of_Z 5; posY := F32.of_Z 5;
                          scaleX := F32.one; scaleY := F32.one;
                          collider := mkCollider (F32.of_Z 10) (F32.of_Z 10)
                                        Layer.Default Layer.All |} =
             mkAABB (F32.add (F32.of_Z 5) F32.zero) (F32.add (F32.of_Z 5) F32.zero)
                    (F32.of_Z 10) (F32.of_Z 10).
Proof.
  apply (getBounds_unit_scale (mkCollider (F32.of_Z 10) (F32.of_Z 10) Layer.Default Layer.All)
           (F32.of_Z 5) (F32.of_Z 5)); reflexivity.
Defined.

(** * The index map as a set of keys *)

(** X19. On a consistent world the index map has one key per entry:
    [hasCollider(id)] is true exactly when some entry carries [id], and the
    map has as many keys as [getColliderCount()] counts entries. *)
Theorem index_map_keys (w : CollisionWorld) :
  index_map_ok w ->
  (forall id, hasCollider id w = true <-> id ∈ (entityId <$> colliders_ w)) /\
  size (entityIndexMap_ w) = getColliderCount w.
Proof.
  intros Hok.
  assert (Hmem : forall id, is_Some (entityIndexMap_ w !! id) <->
                            id ∈ (entityId <$> colliders_ w)).
  { intros id. rewrite list_elem_of_fmap. split.
    - intros [i Hi]. destruct (index_map_lookup w id i Hok Hi) as (e & He & Hid).
      exists e. split; [congruence|]. apply list_elem_of_lookup. eauto.
    - intros (e & -> & He). apply list_elem_of_lookup in He as [i Hi].
      exists i. apply (index_map_entry w i e Hok Hi). }
  split.
  - intros id. rewrite hasCollider_true. apply Hmem.
  - rewrite <- size_dom.
    replace (dom (entityIndexMap_ w)) with
      (list_to_set (entityId <$> colliders_ w) : gset EntityID).
    + rewrite size_list_to_set by (apply index_map_NoDup, Hok).
      unfold getColliderCount. apply length_fmap.
    + apply set_eq. intros id. rewrite elem_of_list_to_set, elem_of_dom. symmetry. apply Hmem.
Qed.

Lemma index_map_keys_witness :
  (forall id, hasCollider id world_three = true <->
              id ∈ (entityId <$> colliders_ world_three)) /\
  size (entityIndexMap_ world_three) = getColliderCount world_three.
Proof. exact (index_map_keys world_three (proj1 world_inv_world_three)). Defined.

(** * Pairs reported before and after a mutation *)

Lemma pair_reported_iff (w : CollisionWorld) (a b : EntityID) :
  index_map_ok w ->
  pair_reported w a b <->
  a <> b /\ exists ea eb, entry_of w a = Some ea /\ entry_of w b = Some eb /\
    entries_intersect ea eb = true.
Proof.
  intros Hok. unfold pair_reported. split.
  - intros (info & Hin & Hp). rewrite detectCollisions_eq in Hin.
    apply detect_pairs_elem in Hin as (i & j & ea & eb & Hij & Ha & Hb & Hint & ->).
    pose proof (entry_of_index w i ea Hok Ha) as Hea.
    pose proof (entry_of_index w j eb Hok Hb) as Heb.
    assert (Hne : entityId ea <> entityId eb).
    { intros Heq. pose proof (index_map_inj w i j ea eb Hok Ha Hb Heq). lia. }
    unfold info_pair in Hp. simpl in Hp. destruct Hp as [[= <- <-]|[= <- <-]].
    + split; [exact Hne|]. exists ea, eb. auto.
    + split; [congruence|]. exists eb, ea. repeat split; auto.
      unfold entries_intersect. rewrite AABB_intersects_sym. exact Hint.
  - intros (Hab & ea & eb & Hea & Heb & Hint).
    destruct (entry_of_Some w a ea Hok Hea) as (Hida & i & _ & Hi).
    destruct (entry_of_Some w b eb Hok Heb) as (Hidb & j & _ & Hj).
    assert (Hij : i <> j) by (intros ->; rewrite Hi in Hj; congruence).
    rewrite detectCollisions_eq.
    destruct (decide (i < j)%nat) as [Hlt|Hge].
    + exists (pair_info ea eb). split; [|left; unfold info_pair; simpl; congruence].
      apply detect_pairs_elem. exists i, j, ea, eb. repeat split; auto.
    + exists (pair_info eb ea). split; [|right; unfold info_pair; simpl; congruence].
      apply detect_pairs_elem. exists j, i, eb, ea. repeat split; auto; [lia|].
      unfold entries_intersect. rewrite AABB_intersects_sym. exact Hint.
Qed.

Lemma pair_reported_preserved (w w' : CollisionWorld) (id a b : EntityID) :
  index_map_ok w -> index_map_ok w' ->
  (forall id', id' <> id -> entry_of w' id' = entry_of w id') ->
  a <> id -> b <> id -> (pair_reported w' a b <-> pair_reported w a b).
Proof.
  intros Hok Hok' Hother Ha Hb.
  rewrite (pair_reported_iff w a b Hok), (pair_reported_iff w' a b Hok').
  rewrite (Hother a Ha), (Hother b Hb). reflexivity.
Qed.

(** X20. On a consistent world, [removeCollider], [addCollider],
    [updatePosition] and [updateScale] applied to [id] leave the pairs of
    the other entities as they were: for [a] and [b] other than [id],
    [detectCollisions] reports the pair [{a, b}] afterwards exactly when it
    reported it before (the order of the two identifiers in the record may
    change, since removal moves the last entry). *)
Theorem mutation_keeps_other_pairs (w : CollisionWorld) (id a b : EntityID)
    (x y sx sy : float) (col : ColliderComponent) :
  world_inv w -> Z.of_nat (length (colliders_ w)) + 1 < 2 ^ 64 ->
  a <> id -> b <> id ->
  (exists w', removeCollider id w = Some w' /\
     (pair_reported w' a b <-> pair_reported w a b)) /\
  (exists w', addCollider id x y sx sy col w = Some w' /\
     (pair_reported w' a b <-> pair_reported w a b)) /\
  (exists w', updatePosition id x y w = Some w' /\
     (pair_reported w' a b <-> pair_reported w a b)) /\
  (exists w', updateScale id sx sy w = Some w' /\
     (pair_reported w' a b <-> pair_reported w a b)).
Proof.
  intros Hinv Hcap Ha Hb. pose proof Hinv as [Hok _].
  destruct (removeCollider_spec w id Hinv) as (wr & Hrm & [Hokr _] & _ & Hor & _).
  destruct (addCollider_spec w id x y sx sy col Hinv Hcap)
    as (wa & Hadd & [Hoka _] & _ & Hoa & _).
  destruct (updatePosition_spec w id x y Hinv) as (wp & Hup & [Hokp _] & _ & Hop & _).
  destruct (updateScale_spec w id sx sy Hinv) as (ws & Hus & [Hoks _] & _ & Hos & _).
  split; [|split; [|split]]; eexists; (split; [eassumption|]);
    eapply pair_reported_preserved; eauto.
Qed.

Lemma mutation_keeps_other_pairs_witness :
  exists w', removeCollider 3 world_three = Some w' /\
    (pair_reported w' 1 2 <-> pair_reported world_three 1 2).
Proof.
  exact (proj1 (mutation_keeps_other_pairs world_three 3 1 2 F32.zero F32.zero
                  F32.one F32.one (mkCollider F32.one F32.one Layer.Default Layer.All)
                  world_inv_world_three ltac:(vm_compute; reflexivity)
                  ltac:(discriminate) ltac:(discriminate))).
Defined.

(** * A later call for the same pair of layers *)

Lemma uint32_testbit_high (z n : Z) : is_uint32 z -> 32 <= n -> Z.testbit z n = false.
Proof.
  intros Hz Hn. replace z with (Z.land z (Z.ones 32)).
  - rewrite Z.land_spec, Z.ones_spec_high by lia. apply andb_false_r.
  - rewrite Z.land_ones by lia. apply Z.mod_small. exact Hz.
Qed.

Lemma not32_testbit_high (l n : Z) : 32 <= n -> Z.testbit (not32 l) n = false.
Proof.
  intros Hn. unfold not32. rewrite Z.land_spec.
  change 0xFFFFFFFF with (Z.ones 32). rewrite Z.ones_spec_high by lia. apply andb_false_r.
Qed.

Lemma row_after_override (l1 l2 : Z) (k : nat) (r : Z) (e1 e2 : bool) :
  is_uint32 r -> is_uint32 l1 -> is_uint32 l2 ->
  row_after l1 l2 e2 k (row_after l1 l2 e1 k r) = row_after l1 l2 e2 k r.
Proof.
  intros Hr H1 H2. unfold row_after, row_update.
  destruct (bit_set l1 k), (bit_set l2 k), e1, e2; try reflexivity;
    apply Z.bits_inj'; intros n Hn;
    destruct (Z.lt_ge_cases n 32) as [Hlo|Hhi];
    rewrite ?Z.lor_spec, ?Z.land_spec, ?Z.lor_spec, ?Z.land_spec;
    try (rewrite ?not32_testbit by lia;
         destruct (Z.testbit r n), (Z.testbit l1 n), (Z.testbit l2 n); reflexivity);
    rewrite ?not32_testbit_high by lia;
    rewrite ?(uint32_testbit_high r n Hr Hhi), ?(uint32_testbit_high l1 n H1 Hhi),
      ?(uint32_testbit_high l2 n H2 Hhi);
    rewrite ?andb_false_r; reflexivity.
Qed.

(** X21. For 32-bit layers and rows, a call of [setLayerCollisionEnabled]
    for a pair of layers overrides an earlier call for the same pair: the
    matrix after the two calls is the matrix after the later call alone. *)
Theorem setLayerCollisionEnabled_override (w : CollisionWorld) (L1 L2 : CollisionLayer)
    (e1 e2 : bool) :
  length (layerMatrix_ w) = 8%nat -> Forall is_uint32 (layerMatrix_ w) ->
  is_uint32 L1 -> is_uint32 L2 ->
  setLayerCollisionEnabled L1 L2 e2 (setLayerCollisionEnabled L1 L2 e1 w) =
  setLayerCollisionEnabled L1 L2 e2 w.
Proof.
  intros Hlen Hrows H1 H2. unfold setLayerCollisionEnabled. simpl. f_equal.
  apply (list_eq_same_length _ _ 8).
  - rewrite setLayerCollisionEnabled_length. exact Hlen.
  - rewrite !setLayerCollisionEnabled_length. exact Hlen.
  - intros k x y Hk Hx Hy.
    apply list_lookup_total_correct in Hx, Hy. subst x y.
    rewrite setLayerCollisionEnabled_row
      by (rewrite ?setLayerCollisionEnabled_length; assumption).
    rewrite !setLayerCollisionEnabled_row by assumption.
    apply row_after_override; try assumption.
    rewrite Forall_forall in Hrows. apply Hrows.
    apply list_elem_of_lookup. exists k. apply list_lookup_lookup_total_lt. lia.
Qed.

Lemma setLayerCollisionEnabled_override_witness :
  setLayerCollisionEnabled Layer.Enemy Layer.Player true
    (setLayerCollisionEnabled Layer.Enemy Layer.Player false newWorld) =
  setLayerCollisionEnabled Layer.Enemy Layer.Player true newWorld.
Proof.
  apply (setLayerCollisionEnabled_override newWorld Layer.Enemy Layer.Player false true).
  - reflexivity.
  - simpl. repeat constructor; vm_compute; congruence.
  - split; vm_compute; congruence.
  - split; vm_compute; congruence.
Defined.

(** * Triggers and the two handlers *)

(** X22. On a consistent world, with the logging handlers installed, every
    call of the collision handler made by [processCollisions] is for two
    registered entries neither of which is a trigger, and every call of the
    trigger-enter handler is for two registered entries one of which is a
    trigger. *)
Theorem trigger_classification (w : CollisionWorld) (call : Call) :
  index_map_ok w -> call ∈ processCollisions logging w [] ->
  match call with
  | CollisionCall info =>
    exists ea eb, getCollider (entityA info) w = Some (Some ea) /\
      getCollider (entityB info) w = Some (Some eb) /\
      isTrigger (collider ea) = false /\ isTrigger (collider eb) = false
  | TriggerEnterCall a b =>
    exists ea eb, getCollider a w = Some (Some ea) /\ getCollider b w = Some (Some eb) /\
      (isTrigger (collider ea) = true \/ isTrigger (collider eb) = true)
  | TriggerExitCall _ _ => False
  end.
Proof.
  intros Hok Hin. rewrite processCollisions_logging in Hin. simpl in Hin.
  apply list_elem_of_In, in_map_iff in Hin as (info & <- & Hinfo).
  apply list_elem_of_In in Hinfo. rewrite detectCollisions_eq in Hinfo.
  apply detect_pairs_elem in Hinfo as (i & j & ea & eb & _ & Ha & Hb & _ & ->).
  pose proof (entry_of_index w i ea Hok Ha) as Hea.
  pose proof (entry_of_index w j eb Hok Hb) as Heb.
  unfold call_of. simpl.
  destruct (isTrigger (collider ea) || isTrigger (collider eb)) eqn:Ht.
  - exists ea, eb. rewrite !(getCollider_entry_of w _ Hok), Hea, Heb.
    apply orb_true_iff in Ht. auto.
  - exists ea, eb. simpl. rewrite !(getCollider_entry_of w _ Hok), Hea, Heb.
    apply orb_false_iff in Ht as [-> ->]. auto.
Qed.

Lemma trigger_classification_witness :
  exists ea eb,
    getCollider (entityA (pair_info (square 1 0 0 10 Layer.Player Layer.Enemy)
                                    (square 2 5 5 10 Layer.Terrain Layer.All)))
                world_masked = Some (Some ea) /\
    getCollider (entityB (pair_info (square 1 0 0 10 Layer.Player Layer.Enemy)
                                    (square 2 5 5 10 Layer.Terrain Layer.All)))
                world_masked = Some (Some eb) /\
    isTrigger (collider ea) = false /\ isTrigger (collider eb) = false.
Proof.
  apply (trigger_classification world_masked
           (CollisionCall (pair_info (square 1 0 0 10 Layer.Player Layer.Enemy)
                                     (square 2 5 5 10 Layer.Terrain Layer.All)))
           (proj1 world_inv_world_masked)).
  vm_compute. apply list_elem_of_here.
Defined.
